(** * gmutils: sentence boundary correction, reparse trigger and option objects

    A shallow embedding of

    - [gmutils/nlp.py]      ([combine_with_previous], [sentence_segmenter],
                             [set_sentence_starts], [split_words],
                             [generate_onehot_vocab]),
    - [gmutils/document.py] ([Document.combine_with_previous],
                             [Document.generate_sentences]),
    - [gmutils/objects.py]  ([Object.set], [Object.get], [Object.set_defaults],
                             [Object.set_options], [Object.mkdirs],
                             [Object.done]),
    - [gmutils/dataset.py]  ([Dataset.get_class_counts]),

    together with the small part of spaCy and of Python's [re] and [str]
    that these functions rely on.  Python exceptions are explicit: every
    function that can raise returns a [result].  A text is a sequence of
    Unicode code points, and the character tests are those of Python 3 on
    [str]: white space is Unicode white space, and the case and the
    alphanumeric tests are those of the Unicode character database, which
    the development takes as a parameter. *)

From stdpp Require Import base list strings gmap.
From Stdlib Require Import ZArith Ascii String Lia.

Local Open Scope string_scope.
Local Open Scope list_scope.
Local Open Scope Z_scope.

(** ** Python exceptions *)

Module Py.

Inductive exn : Type :=
  | IndexError
  | AttributeError
  | ValueError.

Inductive result (A : Type) : Type :=
  | Ok (a : A)
  | Raise (e : exn).
Arguments Ok {A} a.
Arguments Raise {A} e.

Definition bind {A B} (r : result A) (k : A -> result B) : result B :=
  match r with
  | Ok a => k a
  | Raise e => Raise e
  end.

(** *** [str]

    A [str] is the sequence of its code points, numbers from 0 to 1114111;
    indexing, [re] and [split] all work code point by code point. *)

Abbreviation str := (list Z).

Definition ord (c : ascii) : Z := Z.of_N (N_of_ascii c).

(** The [str] written as an ASCII literal. *)
Definition chars (s : string) : str := ord <$> list_ascii_of_string s.

(** [str.isspace] on one character, which is also [\s] of a [str] pattern and
    what [str.split()] splits on: the characters of bidirectional class WS, B
    or S and of category Zs.  These are the code points 9 to 13, 28 to 32,
    U+0085, U+00A0, U+1680, U+2000 to U+200A, U+2028, U+2029, U+202F, U+205F
    and U+3000. *)
Definition isspace (c : Z) : bool :=
  ((9 <=? c) && (c <=? 13)) || ((28 <=? c) && (c <=? 32))
  || (c =? 133) || (c =? 160) || (c =? 5760)
  || ((8192 <=? c) && (c <=? 8202))
  || (c =? 8232) || (c =? 8233) || (c =? 8239) || (c =? 8287)
  || (c =? 12288).

(** [str.islower], [str.isupper] and [str.isalnum] on one character read the
    Unicode character database that the interpreter was built with: the
    properties Lowercase and Uppercase, and the categories of letters and
    numbers.  The tables are not part of the repository; they are a
    parameter, with what every version of them satisfies: on ASCII the
    letters and digits are the usual ones, no character is both uppercase and
    lowercase, and no letter or number is white space. *)
Class Unicode : Type := {
  islower : Z -> bool;
  isupper : Z -> bool;
  isalnum : Z -> bool;
  islower_ascii c :
    0 <= c < 128 -> islower c = (97 <=? c) && (c <=? 122);
  isupper_ascii c :
    0 <= c < 128 -> isupper c = (65 <=? c) && (c <=? 90);
  isalnum_ascii c :
    0 <= c < 128 ->
    isalnum c = ((48 <=? c) && (c <=? 57)) || ((65 <=? c) && (c <=? 90))
                || ((97 <=? c) && (c <=? 122));
  isupper_not_islower c : isupper c = true -> islower c = false;
  isalnum_not_isspace c : isalnum c = true -> isspace c = false
}.

(** [s[0]] *)
Definition str_first (s : str) : result Z :=
  match s with
  | [] => Raise IndexError
  | c :: _ => Ok c
  end.

(** [l[-1] = x] *)
Definition set_last {A} (l : list A) (x : A) : result (list A) :=
  match l with
  | [] => Raise IndexError
  | _ => Ok (removelast l ++ [x])
  end.

(** *** The fragment of [re] the code uses

    A pattern is a sequence of one-character classes, optionally followed by
    [$].  Without [re.MULTILINE], [$] matches at the end of the text and just
    before a line feed that ends the text. *)

Definition cls : Type := Z -> bool.

Definition is_char (x : ascii) : cls := fun c => c =? ord x.
Definition punct : cls := fun c => is_char "." c || is_char "?" c || is_char "!" c.
Definition ws : cls := isspace.
Definition non_ws : cls := fun c => negb (isspace c).

Fixpoint match_here (p : list cls) (l : str) : option str :=
  match p with
  | [] => Some l
  | k :: p' =>
      match l with
      | [] => None
      | c :: l' => if k c then match_here p' l' else None
      end
  end.

Definition at_dollar (l : str) : bool :=
  match l with
  | [] => true
  | [c] => is_char "010" c
  | _ => false
  end.

Definition match_at (p : list cls) (dollar : bool) (l : str) : bool :=
  match match_here p l with
  | Some rest => if dollar then at_dollar rest else true
  | None => false
  end.

(** [re.search]: the pattern is tried at every position, left to right. *)
Fixpoint search_from (p : list cls) (dollar : bool) (l : str) : bool :=
  match_at p dollar l
  || match l with
     | [] => false
     | _ :: l' => search_from p dollar l'
     end.

Definition re_search (p : list cls) (dollar : bool) (s : str) : bool :=
  search_from p dollar s.

(** What may follow a match: anything, or under [$] nothing but one final
    line feed. *)
Definition stops (dollar : bool) (post : str) : Prop :=
  dollar = true -> post = [] \/ post = [10].

(** *** Patterns with a repeated class

    For [\w+] and [.*] a pattern is a sequence of items, a class or a class
    repeated any number of times.  A repetition is greedy: it takes the
    longest run first and gives characters back one at a time while the rest
    of the pattern fails.  A match returns the text taken by each item. *)

Inductive item : Type :=
  | One (k : cls)
  | Many (k : cls).

(** [k*] followed by what [cont] matches. *)
Fixpoint many (k : cls) (cont : str -> option (list str))
    (l : str) : option (list str) :=
  match l with
  | c :: l' =>
      if k c then
        match many k cont l' with
        | Some (g :: gs) => Some ((c :: g) :: gs)
        | _ => cons [] <$> cont l
        end
      else cons [] <$> cont l
  | [] => cons [] <$> cont l
  end.

(** The pattern [p], followed by [$] when [dollar] is set, at the start of
    the text. *)
Fixpoint run (p : list item) (dollar : bool) : str -> option (list str) :=
  match p with
  | [] => fun l => if dollar then (if at_dollar l then Some [] else None)
                   else Some []
  | One k :: p' =>
      fun l =>
        match l with
        | c :: l' => if k c then cons [c] <$> run p' dollar l' else None
        | [] => None
        end
  | Many k :: p' => many k (run p' dollar)
  end.

(** [re.search]: the first position where the pattern matches; the text
    before the match and the texts of the items. *)
Fixpoint search (p : list item) (dollar : bool) (l : str)
    : option (str * list str) :=
  match run p dollar l with
  | Some gs => Some ([], gs)
  | None =>
      match l with
      | [] => None
      | c :: l' =>
          match search p dollar l' with
          | Some (before, gs) => Some (c :: before, gs)
          | None => None
          end
      end
  end.

(** [re.sub], for a pattern that does not start with [^]: every match found
    from left to right is replaced by [repl] of the texts of its items;
    [skip] counts the characters of the last match that are still to be
    passed. *)
Fixpoint sub_scan (p : list item) (dollar : bool)
    (repl : list str -> str) (skip : nat) (l : str) : str :=
  match l with
  | [] =>
      match skip, run p dollar [] with
      | O, Some gs => repl gs
      | _, _ => []
      end
  | c :: l' =>
      match skip with
      | S n => sub_scan p dollar repl n l'
      | O =>
          match run p dollar l with
          | Some gs =>
              match List.length (List.concat gs) with
              | S n => repl gs ++ sub_scan p dollar repl n l'
              | O => repl gs ++ c :: sub_scan p dollar repl 0 l'
              end
          | None => c :: sub_scan p dollar repl 0 l'
          end
      end
  end.

(** [re.sub] for a pattern that starts with [^] and cannot match the empty
    text: only a match at the start of the text is replaced. *)
Definition sub_anchored (p : list item) (dollar : bool)
    (repl : list str -> str) (l : str) : str :=
  match run p dollar l with
  | Some gs => repl gs ++ drop (List.length (List.concat gs)) l
  | None => l
  end.

(** [\w] of a [str] pattern, [[a-zA-Z]] and [.] *)
Definition word_char `{!Unicode} : cls := fun c => isalnum c || is_char "_" c.
Definition letter : cls :=
  fun c => ((97 <=? c) && (c <=? 122)) || ((65 <=? c) && (c <=? 90)).
Definition any_char : cls := fun c => negb (is_char "010" c).

(** [str.split()]: the maximal runs of characters that are not white
    space; [cur] is the run being read. *)
Fixpoint split_ws (cur : str) (l : str) : list str :=
  match l with
  | [] => match cur with [] => [] | _ => [cur] end
  | c :: l' =>
      if isspace c then
        match cur with
        | [] => split_ws [] l'
        | _ => cur :: split_ws [] l'
        end
      else split_ws (cur ++ [c]) l'
  end.

(** [str.split(sep)] for a separator of one character: the first part and
    the parts after it; [cur] is the part being read. *)
Fixpoint split_on (sep : Z) (cur : str) (l : str) : str * list str :=
  match l with
  | [] => (cur, [])
  | c :: l' =>
      if c =? sep then
        let '(first, others) := split_on sep [] l' in (cur, first :: others)
      else split_on sep (cur ++ [c]) l'
  end.

(** The text [g] is one that the item can take. *)
Definition item_fits (it : item) (g : str) : Prop :=
  match it with
  | One k => exists c, g = [c] /\ k c = true
  | Many k => Forall (fun c => k c = true) g
  end.

End Py.

Import Py.

Notation "'let!' x ':=' r 'in' k" := (Py.bind r (fun x => k))
  (at level 10, x name, r at level 100, k at level 200).

(** ** The part of spaCy the code touches *)

Module Spacy.

(** A token: its text, whether a space follows it ([whitespace_] is [" "] or
    empty), and the sentence-start mark ([True], [False], or [None]). *)
Record Token : Type := mkToken {
  text : str;
  whitespace_ : bool;
  is_sent_start : option bool
}.

Abbreviation Doc := (list Token).

(** [len(doc)] *)
Definition doc_len (d : Doc) : Z := Z.of_nat (List.length d).

(** [doc[start:end]], for offsets inside the document. *)
Record Span : Type := mkSpan {
  doc : Doc;
  start : Z;
  end_ : Z
}.

Definition span_tokens (sp : Span) : list Token :=
  take (Z.to_nat (end_ sp - start sp)) (drop (Z.to_nat (start sp)) (doc sp)).

Definition text_with_ws (t : Token) : str :=
  text t ++ (if whitespace_ t then chars " " else []).

(** [Span.text]: the tokens with their trailing spaces, without the space
    after the last token. *)
Definition tokens_text (ts : list Token) : str :=
  List.concat (text_with_ws <$> removelast ts) ++
  match last ts with
  | Some t => text t
  | None => []
  end.

Definition span_text (sp : Span) : str := tokens_text (span_tokens sp).

(** [doc[:]] *)
Definition whole (d : Doc) : Span := mkSpan d 0 (doc_len d).

(** [doc[i]]; a negative index counts from the end. *)
Definition doc_token (d : Doc) (i : Z) : result Token :=
  let j := if i <? 0 then doc_len d + i else i in
  if j <? 0 then Raise IndexError
  else match d !! Z.to_nat j with
       | Some t => Ok t
       | None => Raise IndexError
       end.

(** What [doc.sents] yields: a sentence starts at token 0 and at every later
    token marked [True]; the last sentence ends with the document.  The
    documents that reach [sentence_segmenter] and [generate_sentences] come
    out of the sentencizer and of the parser, which set the sentence
    boundaries; what [doc.sents] does with a document that has none is
    [doc_sents] below. *)
Fixpoint sents_loop (ts : list Token) (s i : Z) : list (Z * Z) * Z :=
  match ts with
  | [] => ([], s)
  | t :: ts' =>
      match is_sent_start t with
      | Some true =>
          let '(out, s') := sents_loop ts' i (i + 1) in ((s, i) :: out, s')
      | _ => sents_loop ts' s (i + 1)
      end
  end.

Definition sents (d : Doc) : list (Z * Z) :=
  let '(out, s) := sents_loop (drop 1 d) 0 1 in
  if s =? doc_len d then out else out ++ [(s, doc_len d)].

(** The test that [doc.sents] makes first, on a document that has not been
    parsed and has no hook for sentences: a document of two tokens or more
    has sentence boundaries when some token after the first has a mark,
    [True] or [False]. *)
Definition is_sentenced (d : Doc) : bool :=
  (List.length d <? 2)%nat
  || existsb (fun t => match is_sent_start t with Some _ => true | None => false end)
       (drop 1 d).

(** [list(doc.sents)] on such a document: [ValueError] (E030) when it has no
    sentence boundaries. *)
Definition doc_sents (d : Doc) : result (list (Z * Z)) :=
  if is_sentenced d then Ok (sents d) else Raise ValueError.

(** Offsets that [doc[start:end]] can have. *)
Definition span_wf (sp : Span) : Prop :=
  0 <= start sp /\ start sp <= end_ sp /\ end_ sp <= doc_len (doc sp).

(** The tokenizer produces no empty token. *)
Definition tokens_nonempty (d : Doc) : Prop :=
  Forall (fun t => text t <> []) d.

Definition to_span (d : Doc) (p : Z * Z) : Span := mkSpan d p.1 p.2.

(** Consecutive spans from [a] to [b]; [strict] asks every span to be
    non-empty. *)
Fixpoint chain (strict : bool) (a b : Z) (l : list (Z * Z)) : Prop :=
  match l with
  | [] => a = b
  | (s, e) :: r => s = a /\ (if strict then s < e else s <= e) /\ chain strict e b r
  end.

(** The token indices [s .. e-1]. *)
Definition range (p : Z * Z) : list Z := seqZ p.1 (p.2 - p.1).

(** The spans of [l], in order, are exactly the tokens [0 .. n-1]: every span
    is ordered, each ends where the next starts, an earlier span ends before
    a later one starts, the first starts at 0 and the last ends at [n]. *)
Definition partition_of (n : Z) (l : list (Z * Z)) : Prop :=
  (forall i s e, l !! i = Some (s, e) -> s <= e)
  /\ (forall i s e s' e',
        l !! i = Some (s, e) -> l !! S i = Some (s', e') -> e = s')
  /\ (forall i j s e s' e', (i < j)%nat ->
        l !! i = Some (s, e) -> l !! j = Some (s', e') -> e <= s')
  /\ (forall s e, head l = Some (s, e) -> s = 0)
  /\ (forall s e, last l = Some (s, e) -> e = n)
  /\ List.concat (range <$> l) = seqZ 0 n.

(** [p] is immediately followed by [c] in [l]. *)
Definition adjacent {A} (l : list A) (p c : A) : Prop :=
  exists i, l !! i = Some p /\ l !! S i = Some c.

End Spacy.

Import Spacy.

(** ** gmutils/nlp.py *)

Module Nlp.

(** [re.search(r"\)", text)] *)
Definition has_close_paren (s : str) : bool := re_search [is_char ")"] false s.

(** The five searches of the last test, in the order of the source. *)
Definition ending_punctuation (s : str) : bool :=
  re_search [punct] true s
  || re_search [punct; non_ws] true s
  || re_search [punct; non_ws; non_ws] true s
  || re_search [punct; ws] true s
  || re_search [punct; ws; ws] true s.

(** The four places where [combine_with_previous] returns [True]. *)
Inductive rule : Type :=
  | ShortFragment
  | ShortCloseParen
  | ShortCapitalizedPrevious
  | NoEndingPunctuation.

(** [not re.search(r'\S', text)] *)
Definition is_blank (s : str) : bool := negb (re_search [non_ws] false s).

Section Segmentation.
Context {ucd : Unicode}.

(** [combine_with_previous], recording which [return True] is taken;
    [None] is the final [return False].  [and] and [or] evaluate their right
    operand only when needed, so [text[0]] is read only for a short span. *)
Definition combine_rule (previous current : Span) : result (option rule) :=
  let! short_fragment :=
    if end_ current - start current <? 3 then
      let! c := str_first (span_text current) in
      Ok (islower c || has_close_paren (span_text previous))
    else Ok false in
  if short_fragment then Ok (Some ShortFragment)
  else if (end_ current - start current <? 7) && has_close_paren (span_text current)
  then Ok (Some ShortCloseParen)
  else
    let! short_previous :=
      if end_ previous - start previous <? 3 then
        let! c := str_first (span_text previous) in
        Ok (isupper c)
      else Ok false in
    if short_previous then Ok (Some ShortCapitalizedPrevious)
    else if negb (ending_punctuation (span_text previous))
    then Ok (Some NoEndingPunctuation)
    else Ok None.

Definition combine_with_previous (previous current : Span) : result bool :=
  let! r := combine_rule previous current in
  Ok (match r with Some _ => true | None => false end).

(** The first loop of [sentence_segmenter].  [previous] holds the offsets of
    the span bound to the variable [previous] ([None] before the first
    assignment); the classifier is called, and its answer is then discarded
    by [and False]. *)
Fixpoint merge_loop (d : Doc) (spacy_sentences : list (Z * Z))
    (sen_offsets : list (Z * Z)) (previous : option (Z * Z))
    : result (list (Z * Z)) :=
  match spacy_sentences with
  | [] => Ok sen_offsets
  | (start, end') :: rest =>
      let current := mkSpan d start end' in
      let previous :=
        match last sen_offsets with
        | Some p => Some p
        | None => previous
        end in
      let! fold :=
        match previous with
        | Some (p_start, p_end) =>
            let! c := combine_with_previous (mkSpan d p_start p_end) current in
            Ok (c && false)
        | None => Ok false
        end in
      if fold then
        match previous with
        | Some (p_start, _) =>
            let! sen_offsets' := set_last sen_offsets (p_start, end') in
            merge_loop d rest sen_offsets' previous
        | None => Raise IndexError
        end
      else merge_loop d rest (sen_offsets ++ [(start, end')]) previous
  end.

(** The second loop: a sentence that starts with a blank token gives that
    token to the sentence before it. *)
Fixpoint shift_loop (d : Doc) (sen_offsets final_offsets : list (Z * Z))
    : result (list (Z * Z)) :=
  match sen_offsets with
  | [] => Ok final_offsets
  | (start, end') :: rest =>
      if 0 <? start then
        let! tok := doc_token d start in
        if is_blank (text tok) then
          match last final_offsets with
          | Some (prev_start, prev_end) =>
              shift_loop d rest
                (removelast final_offsets ++ [(prev_start, prev_end + 1)]
                 ++ [(start + 1, end')])
          | None => Raise IndexError
          end
        else shift_loop d rest (final_offsets ++ [(start, end')])
      else shift_loop d rest (final_offsets ++ [(start, end')])
  end.

Definition sentence_segmenter (d : Doc) : result (list (Z * Z)) :=
  let! sen_offsets := merge_loop d (sents d) [] None in
  shift_loop d sen_offsets [].

(** [token.is_sent_start = True] or [= None], by membership of the token's
    index in [starts]. *)
Definition mark (starts : gset Z) (i : nat) (t : Token) : Token :=
  mkToken (text t) (whitespace_ t)
    (if decide (Z.of_nat i ∈ starts) then Some true else None).

(** [set_sentence_starts]: the loop runs over [doc[:-1]]. *)
Definition set_sentence_starts (d : Doc) : result Doc :=
  let! segments := sentence_segmenter d in
  let starts : gset Z := list_to_set (fst <$> segments) in
  Ok (imap (mark starts) (removelast d) ++ drop (List.length (removelast d)) d).

(** *** Notions used to state the properties of this module *)

(** The text ends in a terminal mark followed by at most two characters that
    are all non-blank or all blank, where a final line feed does not count. *)
Definition ends_terminal (s : str) : Prop :=
  exists pre p tail nl,
    s = pre ++ [p] ++ tail ++ nl
    /\ punct p = true
    /\ (List.length tail <= 2)%nat
    /\ (Forall (fun c => non_ws c = true) tail \/ Forall (fun c => ws c = true) tail)
    /\ (nl = [] \/ nl = [10]).

(** The text ends in a terminal mark followed by one or two letters or
    digits. *)
Definition ends_punct_alnum (s : str) : Prop :=
  exists pre p tail,
    s = pre ++ [p] ++ tail
    /\ punct p = true
    /\ (1 <= List.length tail <= 2)%nat
    /\ Forall (fun c => isalnum c = true) tail.

Definition good_span (d : Doc) (p : Z * Z) : Prop :=
  span_text (mkSpan d p.1 p.2) <> [].

(** 1 when [0 < k] and the token at [k] is blank, else 0: by how much the
    second loop moves a boundary at [k]. *)
Definition bump (d : Doc) (k : Z) : Z :=
  if 0 <? k then
    match doc_token d k with
    | Ok t => if is_blank (text t) then 1 else 0
    | Raise _ => 0
    end
  else 0.

Definition shift_pair (d : Doc) (p : Z * Z) : Z * Z :=
  (p.1 + bump d p.1, p.2 + bump d p.2).

(** The boundary merger in the words of the specification: the classifier is
    asked about the last accumulated span and the candidate, and a positive
    answer extends the last accumulated span. *)
Fixpoint merger_spec (shouldMerge : Span -> Span -> result bool) (d : Doc)
    (candidates acc : list (Z * Z)) : result (list (Z * Z)) :=
  match candidates with
  | [] => Ok acc
  | (s, e) :: rest =>
      match last acc with
      | Some (p_start, p_end) =>
          let! b := shouldMerge (mkSpan d p_start p_end) (mkSpan d s e) in
          if b then merger_spec shouldMerge d rest (removelast acc ++ [(p_start, e)])
          else merger_spec shouldMerge d rest (acc ++ [(s, e)])
      | None => merger_spec shouldMerge d rest (acc ++ [(s, e)])
      end
  end.

(** The spans of a list that hold at least one token. *)
Definition nonempty_spans (l : list (Z * Z)) : list (Z * Z) :=
  filter (fun p : Z * Z => p.1 < p.2) l.

End Segmentation.

(** *** [generate_onehot_vocab] *)

(** The loop of [generate_onehot_vocab], a numpy vector being a list:
    [vocab[word] = deepcopy(vocab['_empty_'])], then [vocab[word][i] = 1].
    [None] stands for the [KeyError] of a missing '_empty_' and for the
    [IndexError] of an index outside the vector. *)
Fixpoint onehot_loop (words : list string) (i : nat)
    (vocab : gmap string (list Z)) : option (gmap string (list Z)) :=
  match words with
  | [] => Some vocab
  | word :: rest =>
      match vocab !! "_empty_" with
      | Some empty =>
          if decide (i < List.length empty)%nat
          then onehot_loop rest (S i) (<[word := <[i := 1]> empty]> vocab)
          else None
      | None => None
      end
  end.

Definition generate_onehot_vocab (words : list string)
    : option (gmap string (list Z)) :=
  onehot_loop words 0 {["_empty_" := replicate (List.length words) 0]}.

(** The vector of length [n] with 1 where [P] holds and 0 elsewhere. *)
Definition indicator (n : nat) (P : nat -> bool) : list Z :=
  (fun k => if P k then 1 else 0) <$> seq 0 n.

(** Whether '_empty_' is the word at index [k]. *)
Definition empty_at (words : list string) (k : nat) : bool :=
  bool_decide (words !! k = Some "_empty_").

(** The vector of '_empty_' once the words before index [i] are done, and
    the vector given to the word at index [j]. *)
Abbreviation empty_vector words i :=
  (indicator (List.length words) (fun k => (k <? i)%nat && empty_at words k)).

Abbreviation word_vector words j :=
  (indicator (List.length words)
     (fun k => (k =? j)%nat || (k <? j)%nat && empty_at words k)).

(** *** [split_words] *)

(** The first loop, for one word: a word with a hyphen between two letters
    gives its first part, and then a hyphen and a part for every part. *)
Definition hyphens (word : str) : list str :=
  if re_search [letter; is_char "-"; letter] false word then
    let '(first, others) := split_on (ord "-") [] word in
    first :: List.concat ((fun part => [chars "-"; part]) <$> first :: others)
  else [word].

Section SplitWords.
Context {ucd : Unicode}.

(** The second loop, for one word: [\w'\w+$], then the two [re.sub]. *)
Definition apostrophes (word : str) : list str :=
  match search [One word_char; One (is_char "'"); One word_char; Many word_char]
          true word with
  | Some _ =>
      let starting :=
        sub_scan [One (is_char "'"); One word_char; Many word_char] true
          (fun _ => []) 0 word in
      let ending :=
        sub_anchored
          [Many any_char; One (is_char "'"); One word_char; Many word_char] true
          (fun gs => List.concat (drop 2 gs)) word in
      [starting; chars "'" ++ ending]
  | None => [word]
  end.

Definition split_words (text : str) : list str :=
  List.concat (apostrophes <$> List.concat (hyphens <$> split_ws [] text)).

End SplitWords.

(** What the first loop puts before a word: nothing, or for a word with a
    hyphen between two letters its part before the first hyphen and a
    hyphen. *)
Definition hyphen_prefix (word : str) : str :=
  if re_search [letter; is_char "-"; letter] false word
  then (split_on (ord "-") [] word).1 ++ chars "-"
  else [].

End Nlp.

(** ** gmutils/document.py *)

Module Document.

(** The two places where [Document.combine_with_previous] returns [True]. *)
Inductive rule : Type :=
  | TooShort
  | NoEndingPunctuation.

Definition combine_rule (previous current : Span) : option rule :=
  if end_ current - start current <? 3 then Some TooShort
  else if negb (Nlp.ending_punctuation (span_text previous))
  then Some NoEndingPunctuation
  else None.

Definition combine_with_previous (previous current : Span) : bool :=
  match combine_rule previous current with Some _ => true | None => false end.

(** The state of the candidate loop of [generate_sentences]. *)
Record merged : Type := mkMerged {
  need_to_reparse : bool;
  sen_offsets : list (Z * Z);
  sen_spans : list Span
}.

(** The loop over [enumerate(spacy_sentences)].  [prev] is
    [spacy_sentences[i-1]], absent when [i = 0]: the classifier sees the
    parser's previous candidate, not the last span of the accumulator. *)
Fixpoint candidates_loop (d : Doc) (spacy_sentences : list (Z * Z))
    (prev : option (Z * Z)) (m : merged) : result merged :=
  match spacy_sentences with
  | [] => Ok m
  | (start, end') :: rest =>
      let current := mkSpan d start end' in
      let fold :=
        match prev with
        | Some (p_start, p_end) =>
            combine_with_previous (mkSpan d p_start p_end) current
        | None => false
        end in
      if fold then
        match last (sen_offsets m) with
        | Some (s0, _) =>
            let! spans' := set_last (sen_spans m) (mkSpan d s0 end') in
            let! offsets' := set_last (sen_offsets m) (s0, end') in
            candidates_loop d rest (Some (start, end')) (mkMerged true offsets' spans')
        | None => Raise IndexError
        end
      else
        candidates_loop d rest (Some (start, end'))
          (mkMerged (need_to_reparse m)
             (sen_offsets m ++ [(start, end')])
             (sen_spans m ++ [current]))
  end.

(** Whether the loop folds some candidate, [prev] being the candidate before
    the first one of [cands]. *)
Fixpoint any_fold (d : Doc) (prev : option (Z * Z)) (cands : list (Z * Z)) : bool :=
  match cands with
  | [] => false
  | c :: r =>
      match prev with
      | Some p => combine_with_previous (to_span d p) (to_span d c)
      | None => false
      end || any_fold d (Some c) r
  end.

Definition acc_wf (d : Doc) (prev : option (Z * Z)) (m : merged) : Prop :=
  (prev <> None -> sen_offsets m <> [])
  /\ sen_spans m = to_span d <$> sen_offsets m.

(** *** Notions used to state what the loop returns *)

(** A run of candidates that the loop makes into one span: the classifier
    accepts every candidate of the run after the first, together with the
    candidate before it. *)
Definition folded (d : Doc) (g : list (Z * Z)) : Prop :=
  g <> []
  /\ forall p c, adjacent g p c ->
       combine_with_previous (to_span d p) (to_span d c) = true.

(** Two runs that follow each other are kept apart: the classifier rejects
    the last candidate of the first with the first candidate of the second. *)
Definition apart (d : Doc) (g g' : list (Z * Z)) : Prop :=
  forall p c, last g = Some p -> head g' = Some c ->
    combine_with_previous (to_span d p) (to_span d c) = false.

(** The span of a run: from the start of its first candidate to the end of
    its last one. *)
Definition hull (g : list (Z * Z)) : Z * Z :=
  (from_option fst 0 (head g), from_option snd 0 (last g)).

Section WithParser.

(** The external parser, [spacy_nlp], and the two things built from its
    output that the repository does not define: [Span.root], here the index
    of the root token, and the constructor of [gmutils.node.Node]. *)
Variable spacy_nlp : str -> Doc.
Variable root : Span -> Z.
Variable tree : Type.
Variable Node : Doc -> Z -> tree.

(** What [generate_sentences] writes, and the texts handed to the parser so
    far, oldest first. *)
Record state : Type := mkState {
  sentences : list Span;
  trees : list tree;
  checked_docs : list Doc;
  calls : list str
}.

(** [spacy_nlp(span.text)] *)
Definition reparsed (sp : Span) : Doc := spacy_nlp (span_text sp).

(** [for span in sen_spans], reparse branch. *)
Fixpoint reparse (spans : list Span) (st : state) : state :=
  match spans with
  | [] => st
  | span :: rest =>
      let doc2 := spacy_nlp (span_text span) in
      let span2 := whole doc2 in
      reparse rest
        (mkState (sentences st ++ [span2])
                 (trees st ++ [Node doc2 (root span2)])
                 (checked_docs st ++ [doc2])
                 (calls st ++ [span_text span]))
  end.

(** [for span in sen_spans], branch without reparse. *)
Fixpoint keep (d : Doc) (spans : list Span) (st : state) : state :=
  match spans with
  | [] => st
  | span :: rest =>
      keep d rest
        (mkState (sentences st ++ [span])
                 (trees st ++ [Node d (root span)])
                 (checked_docs st)
                 (calls st))
  end.

(** The loop over [self.spacy_docs]; [sen_offsets] and [sen_spans] are
    created once, before it. *)
Fixpoint docs_loop (spacy_docs : list Doc) (offsets : list (Z * Z))
    (spans : list Span) (st : state) : result state :=
  match spacy_docs with
  | [] => Ok st
  | d :: rest =>
      let! m := candidates_loop d (sents d) None (mkMerged false offsets spans) in
      let st' :=
        if need_to_reparse m then reparse (sen_spans m) st
        else keep d (sen_spans m)
               (mkState (sentences st) (trees st) (checked_docs st ++ [d]) (calls st)) in
      docs_loop rest (sen_offsets m) (sen_spans m) st'
  end.

Definition generate_sentences (spacy_docs : list Doc) (calls0 : list str)
    : result state :=
  docs_loop spacy_docs [] [] (mkState [] [] [] calls0).

(** [Document.__init__], from the text handed to the parser on. *)
Definition init (text : str) : result state :=
  generate_sentences [spacy_nlp text] [text].

End WithParser.

End Document.

(** ** gmutils/objects.py *)

Module Objects.

Inductive pyval : Type :=
  | PyNone
  | PyBool (b : bool)
  | PyInt (z : Z)
  | PyStr (s : string).

(** An [Object] as far as [set] and [get] see it: the attribute [_value_],
    absent until [set_options] or [get] creates it. *)
Record Object : Type := mkObject {
  _value_ : option (gmap string pyval)
}.

(** [self._value_[key] = val] *)
Definition set (self : Object) (key : string) (val : pyval) : result Object :=
  match _value_ self with
  | Some m => Ok (mkObject (Some (<[key := val]> m)))
  | None => Raise AttributeError
  end.

(** [get]: [KeyError] gives [False]; any other exception, here the missing
    attribute, also resets [_value_] to the empty dict. *)
Definition get (self : Object) (key : string) : Object * pyval :=
  match _value_ self with
  | Some m =>
      match m !! key with
      | Some v => (self, v)
      | None => (self, PyBool false)
      end
  | None => (mkObject (Some ∅), PyBool false)
  end.

(** *** The other methods of [Object] *)

(** The truth value of an object in a condition. *)
Definition truthy (v : pyval) : bool :=
  match v with
  | PyNone => false
  | PyBool b => b
  | PyInt z => negb (z =? 0)
  | PyStr s => negb (String.eqb s "")
  end.

(** The items of a Python [dict], in iteration order; the keys of a [dict]
    are distinct. *)
Abbreviation pydict := (list (string * pyval)).

(** [d[key]] for a key of [d]. *)
Fixpoint dict_get (d : pydict) (key : string) : option pyval :=
  match d with
  | [] => None
  | (k, v) :: rest => if String.eqb k key then Some v else dict_get rest key
  end.

(** The loop of [set_defaults]: [if not self.get(param): self.set(...)]. *)
Fixpoint set_defaults_loop (self : Object) (default : pydict) : result Object :=
  match default with
  | [] => Ok self
  | (param, v) :: rest =>
      let '(self1, current) := get self param in
      if truthy current then set_defaults_loop self1 rest
      else
        let! self2 := set self1 param v in
        set_defaults_loop self2 rest
  end.

(** [set_defaults]; [None] is the default argument [default=None]. *)
Definition set_defaults (self : Object) (default : option pydict) : result Object :=
  match default with
  | None => Ok self
  | Some d => set_defaults_loop self d
  end.

(** [so_far + 1]: a [bool] counts as 0 or 1; [None] and [str] give a
    [TypeError], here [None]. *)
Definition add_one (v : pyval) : option pyval :=
  match v with
  | PyBool b => Some (PyInt (Z.b2z b + 1))
  | PyInt z => Some (PyInt (z + 1))
  | PyNone | PyStr _ => None
  end.

Inductive done_result : Type :=
  | Done (self : Object) (so_far : pyval)
  | DoneTypeError
  | DoneRaise (e : exn).

(** [done], for the function name [caller] found in the calling frame. *)
Definition done (self : Object) (caller : string) : done_result :=
  let tracker := "_DONE_" +:+ caller in
  let '(self1, so_far) := get self tracker in
  match add_one so_far with
  | None => DoneTypeError
  | Some n =>
      match set self1 tracker n with
      | Ok self2 => Done self2 so_far
      | Raise e => DoneRaise e
      end
  end.

(** [done] called [n] times in a row by [caller]: the values returned, or
    [None] when a call raises. *)
Fixpoint done_times (n : nat) (self : Object) (caller : string)
    : option (Object * list pyval) :=
  match n with
  | O => Some (self, [])
  | S n' =>
      match done self caller with
      | Done self1 v =>
          match done_times n' self1 caller with
          | Some (self2, vs) => Some (self2, v :: vs)
          | None => None
          end
      | _ => None
      end
  end.

(** The [options] argument of [set_options]: [None], a [dict], or an
    [Options] object (an [argparse.Namespace] is not modelled). *)
Inductive options_arg : Type :=
  | OptNone
  | OptDict (d : pydict)
  | OptOptions (o : Object).

(** The first lines of [set_options]: make sure that [_value_] exists. *)
Definition ensure_value (self : Object) : Object :=
  match _value_ self with
  | Some _ => self
  | None => mkObject (Some ∅)
  end.

(** [re.search('^_', key)] *)
Definition starts_with_underscore (key : string) : bool :=
  match key with
  | String c _ => Ascii.eqb c "_"
  | EmptyString => false
  end.

(** Keys that [set_options] does not take over from a [dict]. *)
Definition skip_dict (key : string) : bool := String.eqb key "input".

(** Keys that [set_options] does not take over from an [Options] object
    (no value of [pyval] is a bound method). *)
Definition skip_options (key : string) : bool :=
  starts_with_underscore key || String.eqb key "input" || String.eqb key "options".

(** The two loops of [set_options] that copy the items. *)
Fixpoint absorb (skip : string -> bool) (self : Object) (items : pydict)
    : result Object :=
  match items with
  | [] => Ok self
  | (key, val) :: rest =>
      if skip key then absorb skip self rest
      else
        let! self1 := set self key val in
        absorb skip self1 rest
  end.

(** [gmutils.utils.mkdir] is not part of the sources at hand: [mkdirs]
    takes it as a parameter, a function that returns or raises. *)
Definition mkdirs (mkdir : pyval -> result unit) (self : Object) : result Object :=
  let '(self1, output_dir) := get self "output_dir" in
  let! _ := mkdir output_dir in
  let '(self2, model_dir) := get self1 "model_dir" in
  let! _ := mkdir model_dir in
  Ok self2.

(** [set_options], as far as [_value_] goes (the attribute [options] is not
    part of the model). *)
Definition set_options (mkdir : pyval -> result unit) (self : Object)
    (options : options_arg) (default : option pydict) : result Object :=
  let self0 := ensure_value self in
  let! self1 :=
    match options with
    | OptNone => Ok self0
    | OptDict d => absorb skip_dict self0 d
    | OptOptions o =>
        match _value_ o with
        | Some m => absorb skip_options self0 (map_to_list m)
        | None => Raise AttributeError
        end
    end in
  let! self2 := set_defaults self1 default in
  mkdirs mkdir self2.

(** The value a key ends with after the items of [d] that [skip] lets
    through have been copied over a store where it had the value [old]. *)
Definition absorbed (skip : string -> bool) (d : pydict) (key : string)
    (old : pyval) : pyval :=
  if skip key then old
  else match dict_get d key with
       | Some v => v
       | None => old
       end.

(** The value a key ends with after [set_defaults]. *)
Definition defaulted (default : option pydict) (key : string) (old : pyval)
    : pyval :=
  match default with
  | Some d =>
      match dict_get d key with
      | Some v => if truthy old then old else v
      | None => old
      end
  | None => old
  end.

(** The dict behind an object, empty when [_value_] is missing, and what
    [get] finds in it. *)
Definition store (self : Object) : gmap string pyval :=
  match _value_ self with
  | Some m => m
  | None => ∅
  end.

Definition value_in (m : gmap string pyval) (key : string) : pyval :=
  match m !! key with
  | Some v => v
  | None => PyBool false
  end.

End Objects.

(** ** gmutils/dataset.py *)

Module Dataset.

(** The loop of [get_class_counts].  The labels are integers, on which
    [int(y)] is the identity. *)
Fixpoint get_class_counts_loop (Y : list Z) (counts : gmap Z Z) : gmap Z Z :=
  match Y with
  | [] => counts
  | y :: rest =>
      get_class_counts_loop rest
        (match counts !! y with
         | Some c => <[y := c + 1]> counts
         | None => <[y := 1]> counts
         end)
  end.

Definition get_class_counts (Y : list Z) : gmap Z Z :=
  get_class_counts_loop Y ∅.

(** How often [c] occurs in [Y]. *)
Definition occurrences (c : Z) (Y : list Z) : Z :=
  Z.of_nat (List.length (filter (fun y => y = c) Y)).

(** The sum of the values of a dict of counts. *)
Definition total (counts : gmap Z Z) : Z :=
  map_fold (fun _ c acc => c + acc) 0 counts.

End Dataset.

(** ** Small documents used as concrete inputs *)

Module Examples.

(** A token whose text is an ASCII literal. *)
Definition tok (s : string) (space : bool) (sent_start : option bool) : Token :=
  mkToken (chars s) space sent_start.

(** "Hello world. ok." in two candidates, the second short and lowercase. *)
Definition doc_lowercase : Doc :=
  [tok "Hello" true None; tok "world" false None; tok "." true None;
   tok "ok" false (Some true); tok "." false None].

(** "Hello world. Ok." in two candidates, the second short and capitalized. *)
Definition doc_capitalized : Doc :=
  [tok "Hello" true None; tok "world" false None; tok "." true None;
   tok "Ok" false (Some true); tok "." false None].

(** "Hello world. It is ok." in two candidates that no rule merges. *)
Definition doc_plain : Doc :=
  [tok "Hello" true None; tok "world" false None; tok "." true None;
   tok "It" true (Some true); tok "is" true None; tok "ok" false None;
   tok "." false None].

(** "Hi.ok See you." in three candidates: "Hi.", "ok" and "See you.". *)
Definition doc_glued : Doc :=
  [tok "Hi" false None; tok "." false None; tok "ok" true (Some true);
   tok "See" true (Some true); tok "you" false None; tok "." false None].

(** "A." followed by two spaces: the second space is a token, and a
    candidate of its own. *)
Definition doc_blank : Doc :=
  [tok "A" false None; tok "." true None; tok " " false (Some true)].

(** "a.  b": the second candidate is a blank token followed by the last token. *)
Definition doc_blank_before_last : Doc :=
  [tok "a" false None; tok "." false None; tok " " false (Some true);
   tok "b" false None].

(** A parser that knows two texts and makes one token of any other. *)
Definition toy_parser (s : str) : Doc :=
  if bool_decide (s = chars "Hi.ok See you.") then doc_glued
  else if bool_decide (s = chars "Hello world. It is ok.") then doc_plain
  else [mkToken s false None].

Definition toy_root (sp : Span) : Z := start sp.

(** "He left. (Yes.)" in two candidates, the second in parentheses. *)
Definition doc_paren : Doc :=
  [tok "He" true None; tok "left" false None; tok "." true None;
   tok "(" false (Some true); tok "Yes" false None; tok "." false None;
   tok ")" false None].

(** "Hello world. été." in two candidates; U+00E9 has the code 233. *)
Definition doc_accent : Doc :=
  [tok "Hello" true None; tok "world" false None; tok "." true None;
   mkToken [233; 116; 233] false (Some true); tok "." false None].

(** "A.", a no-break space (U+00A0) and "B", the candidates being "A." and
    the rest. *)
Definition doc_nbsp : Doc :=
  [tok "A" false None; tok "." false None; mkToken [160] false (Some true);
   tok "B" false None].

(** "Hi.", a no-break space and "a", and then "See you."; the first four
    tokens are one candidate. *)
Definition doc_nbsp_tail : Doc :=
  [tok "Hi" false None; tok "." false None; mkToken [160] false None;
   tok "a" true None; tok "See" true (Some true); tok "you" false None;
   tok "." false None].

(** "Hi." between the quotation marks U+201C and U+201D, and then
    "See you.". *)
Definition doc_quoted : Doc :=
  [mkToken [8220] false None; tok "Hi" false None; tok "." false None;
   mkToken [8221] true None; tok "See" true (Some true); tok "you" false None;
   tok "." false None].

(** Three tokens after the sentencizer, which found one sentence. *)
Definition doc_one_sentence : Doc :=
  [tok "a" true (Some true); tok "b" true (Some false); tok "c" false (Some false)].

(** The tests of the Unicode character database on the code points below
    256, for the examples; no code point from 256 on is classified here. *)
Definition latin1_islower (c : Z) : bool :=
  ((97 <=? c) && (c <=? 122)) || (c =? 170) || (c =? 181) || (c =? 186)
  || ((223 <=? c) && (c <=? 246)) || ((248 <=? c) && (c <=? 255)).

Definition latin1_isupper (c : Z) : bool :=
  ((65 <=? c) && (c <=? 90)) || ((192 <=? c) && (c <=? 214))
  || ((216 <=? c) && (c <=? 222)).

Definition latin1_isalnum (c : Z) : bool :=
  ((48 <=? c) && (c <=? 57)) || ((65 <=? c) && (c <=? 90))
  || ((97 <=? c) && (c <=? 122))
  || (c =? 170) || (c =? 178) || (c =? 179) || (c =? 181) || (c =? 185)
  || (c =? 186) || ((188 <=? c) && (c <=? 190))
  || ((192 <=? c) && (c <=? 214)) || ((216 <=? c) && (c <=? 246))
  || ((248 <=? c) && (c <=? 255)).

(** The parameter of the examples. *)
Definition latin1 : Unicode.
Proof.
  refine (Build_Unicode latin1_islower latin1_isupper latin1_isalnum _ _ _ _ _);
    intros c; unfold latin1_islower, latin1_isupper, latin1_isalnum, isspace; lia.
Defined.

(** The defaults of dataset.py. *)
Definition dataset_default : Objects.pydict :=
  [("default_file", Objects.PyStr "dataset")].

(** Options as a [dict], with a key "input" and a false value. *)
Definition some_options : Objects.pydict :=
  [("input", Objects.PyStr "corpus.txt"); ("verbose", Objects.PyBool false);
   ("default_file", Objects.PyStr "")].

(** An [Options] object with a key that starts with an underscore. *)
Definition some_options_object : Objects.Object :=
  Objects.mkObject
    (Some (<["_DONE_load" := Objects.PyInt 1]> {["lang" := Objects.PyStr "en"]})).

End Examples.

(** * Properties

    ** What a search finds *)

Section ReFacts.

Lemma match_here_spec p l rest :
  match_here p l = Some rest <->
  exists m, l = m ++ rest /\ Forall2 (fun (k : cls) c => k c = true) p m.
Proof.
  revert l. induction p as [|k p IH]; intros l; simpl.
  - split.
    + intros [= ->]. exists []. split; [done | constructor].
    + intros (m & -> & Hm). inversion Hm. done.
  - destruct l as [|c l].
    + split; [done |]. intros (m & Hl & Hm). inversion Hm; subst. done.
    + destruct (k c) eqn:Hk.
      * rewrite IH. split.
        -- intros (m & -> & Hm). exists (c :: m). split; [done | by constructor].
        -- intros (m & Hl & Hm). inversion Hm as [|? c' ? m' Hc Hm']; subst.
           simpl in Hl. injection Hl as -> ->. by exists m'.
      * split; [done |]. intros (m & Hl & Hm).
        inversion Hm as [|? c' ? m' Hc Hm']; subst.
        simpl in Hl. injection Hl as -> ->. congruence.
Qed.

Lemma at_dollar_spec l : at_dollar l = true <-> l = [] \/ l = [10].
Proof.
  destruct l as [|c [|c' l]]; simpl.
  - split; [by left | done].
  - unfold is_char. rewrite Z.eqb_eq. split.
    + intros ->. by right.
    + intros [|[= ->]]; done.
  - split; [done | intros [|]; done].
Qed.


Lemma match_at_spec p dollar l :
  match_at p dollar l = true <->
  exists m post, l = m ++ post /\ Forall2 (fun (k : cls) c => k c = true) p m
                 /\ stops dollar post.
Proof.
  unfold match_at, stops. split.
  - destruct (match_here p l) as [rest|] eqn:H; [|done].
    apply match_here_spec in H as (m & -> & Hm). intros Hd.
    exists m, rest. split_and!; [done..|].
    intros ->. by apply at_dollar_spec.
  - intros (m & post & -> & Hm & Hd).
    assert (match_here p (m ++ post) = Some post) as ->
      by (apply match_here_spec; eauto).
    destruct dollar; [|done]. apply at_dollar_spec. auto.
Qed.

Lemma search_from_spec p dollar l :
  search_from p dollar l = true <->
  exists pre m post, l = pre ++ m ++ post
    /\ Forall2 (fun (k : cls) c => k c = true) p m /\ stops dollar post.
Proof.
  induction l as [|c l IH]; simpl; rewrite orb_true_iff, match_at_spec.
  - split.
    + intros [(m & post & H)|]; [|done]. by exists [], m, post.
    + intros (pre & m & post & Hl & H). left. exists m, post.
      destruct pre; [done | discriminate].
  - rewrite IH. split.
    + intros [(m & post & H)|(pre & m & post & -> & H)].
      * by exists [], m, post.
      * by exists (c :: pre), m, post.
    + intros ([|c' pre] & m & post & Hl & H).
      * left. by exists m, post.
      * right. injection Hl as -> ->. by exists pre, m, post.
Qed.

End ReFacts.

(** ** The text tests of the classifiers *)

Section NlpText.
Import Nlp.

Lemma has_close_paren_spec s : has_close_paren s = true <-> ord ")" ∈ s.
Proof.
  unfold has_close_paren, re_search. rewrite search_from_spec. split.
  - intros (pre & m & post & -> & Hm & _).
    inversion Hm as [|k c ? m' Hc Hm']; subst. inversion Hm'; subst.
    unfold is_char in Hc. apply Z.eqb_eq in Hc as ->. set_solver.
  - intros (pre & post & ->)%list_elem_of_split.
    exists pre, [ord ")"], post. split_and!; [done| |done].
    repeat constructor.
Qed.

Lemma is_blank_spec s :
  is_blank s = true <-> Forall (fun c => isspace c = true) s.
Proof.
  unfold is_blank, re_search. rewrite negb_true_iff, <- not_true_iff_false.
  rewrite search_from_spec, Forall_forall. split.
  - intros Hno c Hc. destruct (isspace c) eqn:E; [done|]. exfalso. apply Hno.
    apply list_elem_of_split in Hc as (pre & post & ->).
    exists pre, [c], post. split_and!; [done| |done].
    repeat constructor. unfold non_ws. by rewrite E.
  - intros Hall (pre & m & post & Hl & Hm & _).
    inversion Hm as [|k c ? m' Hc Hm']; subst. inversion Hm'; subst.
    unfold non_ws in Hc. rewrite Hall in Hc; [done|]. set_solver.
Qed.


Local Ltac f2 := repeat first [apply List.Forall2_nil | apply List.Forall2_cons; [cbv beta; done|]].

Lemma ending_punctuation_spec s :
  ending_punctuation s = true <-> ends_terminal s.
Proof.
  unfold ending_punctuation, re_search, ends_terminal.
  rewrite !orb_true_iff, !search_from_spec. split.
  - intros [[[[H|H]|H]|H]|H]; destruct H as (pre & m & post & -> & Hm & Hd);
      specialize (Hd eq_refl);
      repeat match goal with
             | H : Forall2 _ (_ :: _) _ |- _ => inversion H; clear H; subst
             | H : Forall2 _ [] _ |- _ => inversion H; clear H; subst
             end.
    all: match goal with
         | |- context [?pre ++ (?c :: ?tl) ++ ?post] => exists pre, c, tl, post
         end.
    all: split_and!; [done | done | simpl; lia | | done].
    all: first [ left; by repeat constructor | right; by repeat constructor ].
  - intros (pre & p & tail & nl & -> & Hp & Hlen & Hcls & Hnl).
    destruct tail as [|a [|b [|? ?]]]; simpl in Hlen; [| | |lia].
    + left; left; left; left. exists pre, [p], nl.
      split_and!; [done | f2 | by intros _].
    + destruct Hcls as [Hc|Hc]; inversion Hc; subst.
      * left; left; left; right. exists pre, [p; a], nl.
        split_and!; [done | f2 | by intros _].
      * left; right. exists pre, [p; a], nl.
        split_and!; [done | f2 | by intros _].
    + destruct Hcls as [Hc|Hc]; inversion Hc as [|? ? ? Hc']; subst;
        inversion Hc'; subst.
      * left; left; right. exists pre, [p; a; b], nl.
        split_and!; [done | f2 | by intros _].
      * right. exists pre, [p; a; b], nl.
        split_and!; [done | f2 | by intros _].
Qed.

End NlpText.

(** ** The classifier of nlp.py: errors and the short-fragment rule *)

Section Classifier.
Import Nlp.
Context {ucd : Unicode}.

Lemma isalnum_non_ws c : isalnum c = true -> non_ws c = true.
Proof. intros H%isalnum_not_isspace. unfold non_ws. by rewrite H. Qed.

Lemma str_first_ok (s : str) : s <> [] -> exists c, str_first s = Ok c.
Proof. destruct s; [done | eauto]. Qed.

Lemma append_empty (s t : str) : s ++ t = [] -> t = [].
Proof. destruct s; simpl; [done | discriminate]. Qed.

Lemma tokens_text_nonempty ts :
  ts <> [] -> Forall (fun t => text t <> []) ts -> tokens_text ts <> [].
Proof.
  intros Hne Hall Htxt. unfold tokens_text in Htxt.
  destruct (last ts) as [t|] eqn:Hlast.
  - apply append_empty in Htxt.
    rewrite Forall_forall in Hall. apply (Hall t); [|done].
    apply last_Some in Hlast as [l' ->]. set_solver.
  - apply last_None in Hlast. done.
Qed.

Lemma span_tokens_length sp :
  span_wf sp -> List.length (span_tokens sp) = Z.to_nat (end_ sp - start sp).
Proof.
  intros (H0 & H1 & H2). unfold span_tokens, doc_len in *.
  rewrite length_take, length_drop. lia.
Qed.

Lemma span_text_empty_length sp :
  span_wf sp -> tokens_nonempty (doc sp) -> span_text sp = [] ->
  end_ sp - start sp = 0.
Proof.
  intros Hwf Htok Htxt. pose proof (span_tokens_length sp Hwf) as Hlen.
  destruct (span_tokens sp) as [|t ts] eqn:Hts.
  - simpl in Hlen. destruct Hwf as (? & ? & ?). lia.
  - exfalso. unfold span_text in Htxt. rewrite Hts in Htxt.
    revert Htxt. apply tokens_text_nonempty; [done|].
    rewrite <- Hts. unfold span_tokens.
    apply Forall_take, Forall_drop, Htok.
Qed.

Lemma combine_with_previous_ok previous current :
  span_text previous <> [] -> span_text current <> [] ->
  exists b, combine_with_previous previous current = Ok b.
Proof.
  intros Hp Hc.
  destruct (str_first_ok _ Hp) as [cp Hcp], (str_first_ok _ Hc) as [cc Hcc].
  unfold combine_with_previous, combine_rule, bind. rewrite Hcp, Hcc.
  repeat (case_match; simpl; simplify_eq; eauto).
Qed.

(** C9.  [combine_with_previous] reads [current.text[0]] for a short current
    span and [previous.text[0]] for a short previous span.  So for two spans
    with non-empty texts it returns a boolean, and for a current span with an
    empty text (a span of a document without empty tokens) it raises
    [IndexError]; with an empty previous text it also raises, unless one of
    the first two rules returns before. *)
Theorem classifier_total_on_nonempty_texts :
  (forall previous current,
     span_text previous <> [] -> span_text current <> [] ->
     exists b, combine_with_previous previous current = Ok b)
  /\ (forall previous current,
        span_wf current -> tokens_nonempty (doc current) ->
        span_text current = [] ->
        combine_with_previous previous current = Raise IndexError)
  /\ (forall previous current,
        span_wf previous -> tokens_nonempty (doc previous) ->
        span_text previous = [] -> span_text current <> [] ->
        combine_rule previous current = Ok (Some ShortFragment)
        \/ combine_rule previous current = Ok (Some ShortCloseParen)
        \/ combine_with_previous previous current = Raise IndexError).
Proof.
  split_and!.
  - apply combine_with_previous_ok.
  - intros p c Hwf Htok Htxt.
    pose proof (span_text_empty_length c Hwf Htok Htxt) as Hlen.
    unfold combine_with_previous, combine_rule.
    rewrite Hlen, Htxt. reflexivity.
  - intros p c Hwf Htok Htxt Hc.
    pose proof (span_text_empty_length p Hwf Htok Htxt) as Hlen.
    destruct (str_first_ok _ Hc) as [cc Hcc].
    unfold combine_with_previous, combine_rule, bind.
    rewrite Hlen, Htxt, Hcc. simpl.
    repeat (case_match; simpl; simplify_eq; eauto).
Qed.

(** C3, amended.  In [nlp.combine_with_previous] the short-fragment rule
    fires exactly when the current span has fewer than 3 tokens and its first
    character is lowercase or the previous text contains a closing
    parenthesis; so it does not fire for a short span that starts with an
    uppercase letter after a text without closing parenthesis.  In
    [Document.combine_with_previous] the rule fires exactly when the current
    span has fewer than 3 tokens, whatever its first character. *)
Theorem short_fragment_rule :
  (forall previous current,
     combine_rule previous current = Ok (Some ShortFragment) <->
     end_ current - start current < 3
     /\ exists c, str_first (span_text current) = Ok c
          /\ (islower c = true \/ ord ")" ∈ span_text previous))
  /\ (forall previous current c,
        end_ current - start current < 3 ->
        str_first (span_text current) = Ok c -> isupper c = true ->
        ord ")" ∉ span_text previous ->
        combine_rule previous current <> Ok (Some ShortFragment))
  /\ (forall previous current,
        Document.combine_rule previous current = Some Document.TooShort <->
        end_ current - start current < 3).
Proof.
  assert (forall previous current,
     combine_rule previous current = Ok (Some ShortFragment) <->
     end_ current - start current < 3
     /\ exists c, str_first (span_text current) = Ok c
          /\ (islower c = true \/ ord ")" ∈ span_text previous)) as H1.
  { intros p c. unfold combine_rule, bind. setoid_rewrite <- has_close_paren_spec.
    destruct (Z.ltb_spec (end_ c - start c) 3) as [Hlt|Hge].
    - destruct (str_first (span_text c)) as [ch|e]; simpl.
      + destruct (islower ch || has_close_paren (span_text p)) eqn:E.
        * split; [|done]. intros _. split; [done|]. exists ch.
          split; [done|]. by apply orb_true_iff.
        * split.
          -- repeat (case_match; simpl; simplify_eq; try done).
          -- intros (_ & ch' & [= <-] & Hor). apply orb_true_iff in Hor. congruence.
      + split; [done|]. intros (_ & ? & ? & _). done.
    - simpl. split.
      + repeat (case_match; simpl; simplify_eq; try done).
      + intros [? _]. lia. }
  split_and!; [done | |].
  - intros p c ch Hlt Hch Hup Hno Hrule. apply H1 in Hrule as (_ & ch' & Hch' & Hor).
    rewrite Hch in Hch'. injection Hch' as <-.
    apply isupper_not_islower in Hup. destruct Hor; [congruence | done].
  - intros p c. unfold Document.combine_rule.
    destruct (Z.ltb_spec (end_ c - start c) 3); split; try done; try lia.
    repeat (case_match; simplify_eq; try done).
Qed.

End Classifier.

(** ** The test on the end of the previous text *)

Section Rule4.
Import Nlp.
Context {ucd : Unicode}.

Lemma ends_punct_alnum_terminal s : ends_punct_alnum s -> ends_terminal s.
Proof.
  intros (pre & p & tail & Hs & Hp & Hlen & Hall).
  exists pre, p, tail, []. split_and!; [by rewrite app_nil_r | done | lia | | by left].
  left. eapply Forall_impl; [exact Hall|]. apply isalnum_non_ws.
Qed.

Lemma negb_ending_punctuation s :
  negb (ending_punctuation s) = true <-> ~ ends_terminal s.
Proof.
  rewrite <- ending_punctuation_spec, negb_true_iff. symmetry. apply not_true_iff_false.
Qed.

(** C4, amended.  The last test holds exactly when the previous text does not
    end in ".", "?" or "!" followed by at most two non-blank characters or at
    most two blank characters (a final line feed aside).  In
    [nlp.combine_with_previous] a run that reaches the last test returns
    [True] through it exactly then; in [Document.combine_with_previous] the
    rule fires exactly when the current span has at least 3 tokens and the
    test holds.  A previous text that ends in a terminal mark followed by one
    or two letters or digits does not fire the rule. *)
Theorem no_ending_punctuation_rule :
  (forall s, negb (ending_punctuation s) = true <-> ~ ends_terminal s)
  /\ (forall previous current,
        combine_rule previous current = Ok (Some NoEndingPunctuation) ->
        ~ ends_terminal (span_text previous))
  /\ (forall previous current,
        combine_rule previous current = Ok None ->
        ends_terminal (span_text previous))
  /\ (forall previous current,
        Document.combine_rule previous current
          = Some Document.NoEndingPunctuation <->
        3 <= end_ current - start current
        /\ ~ ends_terminal (span_text previous))
  /\ (forall previous current,
        ends_punct_alnum (span_text previous) ->
        combine_rule previous current <> Ok (Some NoEndingPunctuation)
        /\ Document.combine_rule previous current
             <> Some Document.NoEndingPunctuation).
Proof.
  assert (forall p c, combine_rule p c = Ok (Some NoEndingPunctuation) ->
                      ~ ends_terminal (span_text p)) as H2.
  { intros p c. rewrite <- negb_ending_punctuation.
    unfold combine_rule, bind.
    repeat (case_match; simpl; simplify_eq; try done). }
  assert (forall p c, Document.combine_rule p c = Some Document.NoEndingPunctuation <->
                      3 <= end_ c - start c /\ ~ ends_terminal (span_text p)) as H4.
  { intros p c. rewrite <- negb_ending_punctuation. unfold Document.combine_rule.
    destruct (Z.ltb_spec (end_ c - start c) 3).
    - split; [done | lia].
    - destruct (negb (ending_punctuation (span_text p))); split;
        [intros _; split; [lia | done] | done | done | intros [_ ?]; done]. }
  split_and!; [apply negb_ending_punctuation | exact H2 | | exact H4 |].
  - intros p c. rewrite <- ending_punctuation_spec.
    unfold combine_rule, bind.
    repeat (case_match; simpl; simplify_eq; try done).
    all: intros _; by apply negb_false_iff.
  - intros p c Hal%ends_punct_alnum_terminal. split.
    + intros H%H2. done.
    + intros H%H4. destruct H as [_ ?]. done.
Qed.

End Rule4.

(** ** Chains of spans *)

Section Segments.
Import Nlp.






Lemma chain_le strict a b l : chain strict a b l -> a <= b.
Proof.
  revert a. induction l as [|[s e] r IH]; simpl; intros a.
  - lia.
  - intros (-> & Hse & Hr). apply IH in Hr. destruct strict; lia.
Qed.

Lemma chain_app strict a c b l1 l2 :
  chain strict a c l1 -> chain strict c b l2 -> chain strict a b (l1 ++ l2).
Proof.
  revert a. induction l1 as [|[s e] r IH]; simpl; intros a.
  - by intros ->.
  - intros (-> & Hse & Hr) H2. eauto.
Qed.

Lemma chain_weaken a b l : chain true a b l -> chain false a b l.
Proof.
  revert a. induction l as [|[s e] r IH]; simpl; intros a; [done|].
  intros (-> & Hse & Hr). split_and!; [done | lia | eauto].
Qed.

Lemma chain_elem strict a b l s e :
  chain strict a b l -> (s, e) ∈ l ->
  a <= s /\ (if strict then s < e else s <= e) /\ e <= b.
Proof.
  revert a. induction l as [|[s0 e0] r IH]; simpl; intros a Hc Hin.
  - by apply elem_of_nil in Hin.
  - destruct Hc as (-> & Hse & Hr). apply elem_of_cons in Hin as [[= -> ->]|Hin].
    + apply chain_le in Hr. destruct strict; lia.
    + destruct (IH _ Hr Hin) as (? & ? & ?). destruct strict; lia.
Qed.

Lemma chain_lookup_later strict a b l j s e :
  chain strict a b l -> l !! j = Some (s, e) -> a <= s.
Proof.
  intros Hc Hj. apply list_elem_of_lookup_2 in Hj.
  by destruct (chain_elem _ _ _ _ _ _ Hc Hj).
Qed.

Lemma chain_cover a b l : chain false a b l -> List.concat (range <$> l) = seqZ a (b - a).
Proof.
  revert a. induction l as [|[s e] r IH]; intros a.
  - simpl. intros ->. by rewrite Z.sub_diag.
  - intros (-> & Hse & Hr).
    change (List.concat (range <$> (a, e) :: r))
      with (range (a, e) ++ List.concat (range <$> r)).
    rewrite (IH _ Hr). unfold range; simpl.
    pose proof (chain_le _ _ _ _ Hr).
    replace (b - a) with ((e - a) + (b - e)) by lia.
    rewrite seqZ_app by lia. by replace (a + (e - a)) with e by lia.
Qed.

Lemma chain_last a b l s e :
  chain false a b l -> last l = Some (s, e) -> e = b.
Proof.
  revert a. induction l as [|[s0 e0] r IH]; simpl; intros a; [done|].
  intros (-> & Hse & Hr). destruct r as [|p r'].
  - simpl in *. intros [= -> ->]. done.
  - intros Hl. eapply IH; [exact Hr|]. exact Hl.
Qed.

Lemma chain_partition n l : chain false 0 n l -> partition_of n l.
Proof.
  intros Hc. unfold partition_of. split_and!.
  - intros i s e Hi. apply list_elem_of_lookup_2 in Hi.
    by destruct (chain_elem _ _ _ _ _ _ Hc Hi) as (_ & ? & _).
  - revert Hc. generalize 0. induction l as [|[s0 e0] r IH]; intros a Hc i s e s' e' Hi Hj.
    + done.
    + destruct Hc as (-> & _ & Hr). destruct i as [|i]; simpl in *.
      * injection Hi as -> ->. destruct r as [|[s1 e1] r']; [done|].
        simpl in *. injection Hj as -> ->. by destruct Hr as (-> & _).
      * eapply IH; eauto.
  - revert Hc. generalize 0. induction l as [|[s0 e0] r IH]; intros a Hc i j s e s' e' Hij Hi Hj.
    + done.
    + destruct Hc as (-> & _ & Hr). destruct j as [|j]; [lia|].
      destruct i as [|i]; simpl in *.
      * injection Hi as -> ->. eapply chain_lookup_later; eauto.
      * eapply (IH _ Hr i j); eauto. lia.
  - destruct l as [|[s0 e0] r]; simpl; [done|]. intros s e [= -> ->].
    by destruct Hc as (-> & _).
  - intros s e. by apply (chain_last 0).
  - rewrite (chain_cover _ _ _ Hc). by rewrite Z.sub_0_r.
Qed.

End Segments.

(** ** The two loops of [sentence_segmenter] *)

Section Segmenter.
Import Nlp.
Context {ucd : Unicode}.

Lemma sents_loop_chain ts s i out s' :
  s < i -> sents_loop ts s i = (out, s') ->
  chain true s s' out /\ s' < i + Z.of_nat (List.length ts).
Proof.
  revert s i out s'. induction ts as [|t ts IH]; simpl; intros s i out s' Hsi.
  - intros [= <- <-]. simpl. lia.
  - destruct (is_sent_start t) as [[]|].
    + destruct (sents_loop ts i (i + 1)) as [out1 s1] eqn:E.
      intros [= <- <-]. apply IH in E as [Hc Hlt]; [|lia].
      simpl. split_and!; [done | lia | done | lia].
    + intros E. apply IH in E as [Hc Hlt]; [|lia]. split; [done | lia].
    + intros E. apply IH in E as [Hc Hlt]; [|lia]. split; [done | lia].
Qed.

Lemma sents_chain d : chain true 0 (doc_len d) (sents d).
Proof.
  unfold sents. destruct (sents_loop (drop 1 d) 0 1) as [out s] eqn:E.
  apply sents_loop_chain in E as [Hc Hlt]; [|lia].
  rewrite length_drop in Hlt. unfold doc_len.
  destruct d as [|t d].
  - simpl in *. apply chain_le in Hc as Hle.
    assert (s = 0) as -> by lia. simpl. done.
  - simpl List.length in *. destruct (Z.eqb_spec s (Z.of_nat (S (List.length d)))); [lia|].
    eapply chain_app; [exact Hc|]. simpl. lia.
Qed.

Lemma span_text_nonempty d s e :
  tokens_nonempty d -> 0 <= s -> s < e -> e <= doc_len d ->
  span_text (mkSpan d s e) <> [].
Proof.
  intros Htok H0 Hse Hen Htxt.
  assert (span_wf (mkSpan d s e)) as Hwf by (unfold span_wf; simpl; lia).
  pose proof (span_text_empty_length _ Hwf Htok Htxt) as Hz. simpl in Hz. lia.
Qed.

(** The first loop never folds. *)
Lemma merge_loop_appends d cands acc prev out :
  merge_loop d cands acc prev = Ok out -> out = acc ++ cands.
Proof.
  revert acc prev. induction cands as [|[s e] r IH]; simpl; intros acc prev.
  - intros [= <-]. by rewrite app_nil_r.
  - unfold bind.
    destruct (match last acc with Some p => Some p | None => prev end) as [[ps pe]|].
    + destruct (combine_with_previous _ _) as [b|]; [|done]. simpl.
      rewrite andb_false_r. intros H%IH. by rewrite <- app_assoc in H.
    + intros H%IH. by rewrite <- app_assoc in H.
Qed.


Lemma merge_loop_total d cands acc prev :
  (acc = [] -> prev = None) ->
  Forall (good_span d) (acc ++ cands) ->
  merge_loop d cands acc prev = Ok (acc ++ cands).
Proof.
  revert acc prev. induction cands as [|[s e] r IH]; simpl; intros acc prev Hprev Hall.
  - by rewrite app_nil_r.
  - assert (merge_loop d r (acc ++ [(s, e)])
              (match last acc with Some p => Some p | None => prev end)
            = Ok (acc ++ (s, e) :: r)) as Hnext.
    { rewrite (IH (acc ++ [(s, e)])).
      - by rewrite <- app_assoc.
      - intros Hnil. by destruct acc.
      - by rewrite <- app_assoc. }
    unfold bind. destruct (last acc) as [[ps pe]|] eqn:Hlast.
    + rewrite Forall_forall in Hall.
      destruct (combine_with_previous_ok (mkSpan d ps pe) (mkSpan d s e)) as [b ->].
      * apply (Hall (ps, pe)). apply last_Some in Hlast as [l' ->]. set_solver.
      * apply (Hall (s, e)). set_solver.
      * simpl. rewrite andb_false_r. exact Hnext.
    + apply last_None in Hlast. rewrite (Hprev Hlast) in *. exact Hnext.
Qed.

Lemma chain_good d a l :
  tokens_nonempty d -> 0 <= a -> chain true a (doc_len d) l ->
  Forall (good_span d) l.
Proof.
  intros Htok Ha Hc. apply Forall_forall. intros [s e] Hin.
  destruct (chain_elem _ _ _ _ _ _ Hc Hin) as (? & ? & ?).
  apply span_text_nonempty; simpl; [done | lia..].
Qed.

Lemma doc_token_nonneg d k :
  0 <= k ->
  doc_token d k = match d !! Z.to_nat k with
                  | Some t => Ok t
                  | None => Raise IndexError
                  end.
Proof.
  intros Hk. unfold doc_token.
  destruct (Z.ltb_spec k 0); [lia|]. cbv zeta.
  by destruct (Z.ltb_spec k 0); [lia|].
Qed.

Lemma bump_range d k : 0 <= bump d k <= 1.
Proof. unfold bump. repeat case_match; lia. Qed.

Lemma bump_0 d : bump d 0 = 0.
Proof. reflexivity. Qed.

Lemma bump_len d : bump d (doc_len d) = 0.
Proof.
  unfold bump. destruct (Z.ltb_spec 0 (doc_len d)); [|done].
  rewrite doc_token_nonneg by lia.
  destruct (d !! Z.to_nat (doc_len d)) eqn:E; [|done].
  apply lookup_lt_Some in E. unfold doc_len in E. lia.
Qed.

Lemma doc_token_in_range d k :
  0 <= k < doc_len d -> exists t, doc_token d k = Ok t.
Proof.
  intros Hk. rewrite doc_token_nonneg by lia. unfold doc_len in *.
  destruct (d !! Z.to_nat k) eqn:E; [eauto|].
  apply lookup_ge_None in E. lia.
Qed.

Lemma shift_loop_pending d cands F x a :
  0 < a -> chain true a (doc_len d) cands ->
  shift_loop d cands (F ++ [(x, a)])
  = Ok (F ++ [(x, a + bump d a)] ++ (shift_pair d <$> cands)).
Proof.
  revert F x a. induction cands as [|[s e] r IH]; intros F x a Ha Hc.
  - simpl in Hc. subst a. simpl. by rewrite bump_len, Z.add_0_r.
  - destruct Hc as (-> & Hse & Hr). pose proof (chain_le _ _ _ _ Hr) as Hle.
    cbn [shift_loop]. destruct (Z.ltb_spec 0 a); [|lia].
    destruct (doc_token_in_range d a) as [t Ht]; [lia|].
    unfold bind. rewrite Ht.
    assert (bump d a = if is_blank (text t) then 1 else 0) as Hb.
    { unfold bump. destruct (Z.ltb_spec 0 a); [|lia]. by rewrite Ht. }
    destruct (is_blank (text t)).
    + rewrite last_snoc, removelast_last.
      replace (F ++ [(x, a + 1)] ++ [(a + 1, e)])
        with ((F ++ [(x, a + 1)]) ++ [(a + 1, e)]) by by rewrite <- app_assoc.
      rewrite IH by (done || lia). rewrite Hb.
      rewrite fmap_cons. unfold shift_pair at 2. simpl. rewrite Hb.
      by rewrite <- !app_assoc.
    + rewrite IH by (done || lia). rewrite Hb, Z.add_0_r.
      rewrite fmap_cons. unfold shift_pair at 2. simpl. rewrite Hb, Z.add_0_r.
      by rewrite <- !app_assoc.
Qed.

Lemma shift_loop_spec d cands :
  chain true 0 (doc_len d) cands ->
  shift_loop d cands [] = Ok (shift_pair d <$> cands).
Proof.
  destruct cands as [|[s e] r]; [done|].
  intros (-> & Hse & Hr). cbn [shift_loop]. simpl (0 <? 0).  cbv iota.
  rewrite (shift_loop_pending d r [] 0 e) by (done || lia).
  rewrite fmap_cons. unfold shift_pair at 2. by rewrite ?bump_0.
Qed.

Lemma chain_shift d a b l :
  chain true a b l ->
  chain false (a + bump d a) (b + bump d b) (shift_pair d <$> l).
Proof.
  revert a. induction l as [|[s e] r IH]; intros a.
  - simpl. by intros ->.
  - intros (-> & Hse & Hr). rewrite fmap_cons. unfold shift_pair at 1. simpl.
    split_and!; [done | | by apply IH].
    pose proof (bump_range d a). pose proof (bump_range d e). lia.
Qed.

Lemma sentence_segmenter_result d out :
  sentence_segmenter d = Ok out -> out = shift_pair d <$> sents d.
Proof.
  unfold sentence_segmenter, bind.
  destruct (merge_loop d (sents d) [] None) as [so|] eqn:E; [|done].
  apply merge_loop_appends in E. simpl in E. subst so.
  rewrite shift_loop_spec by apply sents_chain. by intros [= <-].
Qed.

Lemma sentence_segmenter_total d :
  tokens_nonempty d -> sentence_segmenter d = Ok (shift_pair d <$> sents d).
Proof.
  intros Htok. unfold sentence_segmenter, bind.
  rewrite merge_loop_total; [|done|].
  - simpl. apply shift_loop_spec, sents_chain.
  - simpl. eapply chain_good; [done| |apply sents_chain]. lia.
Qed.


End Segmenter.

(** ** Partition, shift and sentence starts *)

Section SegmenterClaims.
Import Nlp.
Context {ucd : Unicode}.

Lemma bump_one d k :
  bump d k = 1 <->
  0 < k /\ exists t, d !! Z.to_nat k = Some t
                     /\ Forall (fun c => isspace c = true) (text t).
Proof.
  unfold bump. setoid_rewrite <- is_blank_spec.
  destruct (Z.ltb_spec 0 k) as [Hk|Hk].
  - rewrite doc_token_nonneg by lia.
    destruct (d !! Z.to_nat k) as [t|].
    + destruct (is_blank (text t)) eqn:E; split; try done.
      * intros _. eauto.
      * intros (_ & t' & [= <-] & ?). congruence.
    + split; [done|]. intros (_ & t' & ? & _). done.
  - split; [done | lia].
Qed.


(** C5, amended.  On a document with sentence boundaries and without empty
    tokens, the second loop keeps the number of spans and moves every
    boundary [k] by [bump d k]: by one token when [0 < k] and the text of the
    token at [k] is white space only, not at all otherwise; so the span
    before [k] gains that token and the span starting at [k] loses it.  The
    move is not conditional on the span staying non-empty: a span stays
    non-empty unless it is one blank token whose successor does not start
    with a blank. *)
Theorem whitespace_shift d :
  is_sentenced d = true ->
  tokens_nonempty d ->
  exists out,
    sentence_segmenter d = Ok out
    /\ List.length out = List.length (sents d)
    /\ (forall i s e, sents d !! i = Some (s, e) ->
          out !! i = Some (s + bump d s, e + bump d e))
    /\ (forall k, (bump d k = 0 \/ bump d k = 1)
          /\ (bump d k = 1 <->
              0 < k /\ exists t, d !! Z.to_nat k = Some t
                   /\ Forall (fun c => isspace c = true) (text t)))
    /\ (forall i s e, sents d !! i = Some (s, e) ->
          (s + bump d s < e + bump d e
           <-> ~ (e = s + 1 /\ bump d s = 1 /\ bump d e = 0))).
Proof.
  intros _ Htok. exists (shift_pair d <$> sents d). split_and!.
  - by apply sentence_segmenter_total.
  - by rewrite length_fmap.
  - intros i s e Hi. by rewrite list_lookup_fmap, Hi.
  - intros k. split; [|apply bump_one].
    pose proof (bump_range d k). lia.
  - intros i s e Hi. apply list_elem_of_lookup_2 in Hi.
    destruct (chain_elem _ _ _ _ _ _ (sents_chain d) Hi) as (_ & Hse & _).
    pose proof (bump_range d s). pose proof (bump_range d e). lia.
Qed.

Lemma elem_of_starts (segments : list (Z * Z)) (k : Z) :
  k ∈ (list_to_set (fst <$> segments) : gset Z) <-> exists e, (k, e) ∈ segments.
Proof.
  rewrite elem_of_list_to_set, list_elem_of_fmap. split.
  - intros ([s e] & -> & Hin). by exists e.
  - intros [e Hin]. by exists (k, e).
Qed.

(** C10.  [set_sentence_starts] leaves texts and spaces alone; every token but
    the last gets the mark [True] when a segment of [sentence_segmenter]
    starts at its index and [None] otherwise; the last token is unchanged. *)
Theorem set_sentence_starts_marks d segments :
  sentence_segmenter d = Ok segments ->
  exists d',
    set_sentence_starts d = Ok d'
    /\ List.length d' = List.length d
    /\ (forall i t, d !! i = Some t -> (S i < List.length d)%nat ->
          exists t', d' !! i = Some t'
            /\ text t' = text t /\ whitespace_ t' = whitespace_ t
            /\ ((exists e, (Z.of_nat i, e) ∈ segments) ->
                is_sent_start t' = Some true)
            /\ (~ (exists e, (Z.of_nat i, e) ∈ segments) ->
                is_sent_start t' = None))
    /\ last d' = last d.
Proof.
  intros Hseg. unfold set_sentence_starts, bind. rewrite Hseg.
  eexists. split; [reflexivity|].
  destruct (decide (d = [])) as [->|Hne]; [by split_and!|].
  destruct (exists_last Hne) as (d0 & tl & ->).
  rewrite removelast_last, drop_app_length. split_and!.
  - by rewrite !length_app, length_imap.
  - intros i t Hi Hlt. rewrite length_app in Hlt. simpl in Hlt.
    rewrite lookup_app_l in Hi by lia.
    rewrite lookup_app_l by (rewrite length_imap; lia).
    rewrite list_lookup_imap, Hi. simpl. eexists. split; [reflexivity|].
    simpl. split_and!; [done..| |].
    + intros Hex. apply elem_of_starts in Hex. by rewrite decide_True.
    + intros Hex. rewrite decide_False; [done|]. by rewrite elem_of_starts.
  - by rewrite !last_snoc.
Qed.

End SegmenterClaims.

(** ** [Document.generate_sentences] *)

Section DocumentFacts.
Import Document.




Lemma adjacent_cons {A} (x : A) l p c :
  adjacent (x :: l) p c <-> (p = x /\ head l = Some c) \/ adjacent l p c.
Proof.
  unfold adjacent. split.
  - intros ([|i] & Hp & Hc); simpl in *.
    + left. injection Hp as <-. split; [done|]. by destruct l.
    + right. eauto.
  - intros [[-> Hh]|(i & Hp & Hc)].
    + exists 0%nat. split; [done|]. by destruct l.
    + by exists (S i).
Qed.

Lemma any_fold_spec d prev cands :
  any_fold d prev cands = true <->
  exists p c, adjacent (option_list prev ++ cands) p c
    /\ combine_with_previous (to_span d p) (to_span d c) = true.
Proof.
  revert prev. induction cands as [|x r IH]; intros prev.
  - simpl. split; [done|]. intros (p & c & (i & Hp & Hc) & _).
    rewrite app_nil_r in *. destruct prev; destruct i; done.
  - cbn [any_fold]. rewrite orb_true_iff, IH. simpl (option_list (Some x) ++ r).
    destruct prev as [q|]; simpl (option_list _ ++ _).
    + split.
      * intros [H|(p & c & Hadj & H)].
        -- exists q, x. split; [|done]. by exists 0%nat.
        -- exists p, c. split; [|done]. apply adjacent_cons. by right.
      * intros (p & c & Hadj & H). apply adjacent_cons in Hadj as [[-> Hh]|Hadj].
        -- left. simpl in Hh. by injection Hh as <-.
        -- right. eauto.
    + split.
      * intros [H|H]; [done | exact H].
      * intros H. by right.
Qed.


Lemma set_last_snoc {A} (l : list A) (y x : A) :
  set_last (l ++ [y]) x = Ok (l ++ [x]).
Proof. unfold set_last. rewrite removelast_last. by destruct l. Qed.

Lemma candidates_loop_result d cands prev m :
  acc_wf d prev m ->
  exists m',
    candidates_loop d cands prev m = Ok m'
    /\ need_to_reparse m' = need_to_reparse m || any_fold d prev cands
    /\ sen_spans m' = to_span d <$> sen_offsets m'
    /\ (any_fold d prev cands = false -> sen_offsets m' = sen_offsets m ++ cands).
Proof.
  revert prev m. induction cands as [|[s e] r IH]; intros prev m [Hne Hsp].
  - exists m. simpl. rewrite orb_false_r, app_nil_r. done.
  - cbn [candidates_loop any_fold].
    change (to_span d (s, e)) with (mkSpan d s e).
    set (fold := match prev with
                 | Some p => combine_with_previous (to_span d p) (mkSpan d s e)
                 | None => false
                 end).
    assert (match prev with
            | Some (p_start, p_end) =>
                combine_with_previous (mkSpan d p_start p_end) (mkSpan d s e)
            | None => false
            end = fold) as -> by (by destruct prev as [[]|]).
    destruct fold eqn:Hfold.
    + assert (sen_offsets m <> []) as Hoff.
      { apply Hne. destruct prev; [done | discriminate]. }
      destruct (exists_last Hoff) as (offs & [s0 e0] & Heq).
      destruct m as [flag offsets spans]. simpl in *. subst offsets spans.
      rewrite last_snoc, fmap_snoc, !set_last_snoc. simpl.
      destruct (IH (Some (s, e))
                  (mkMerged true (offs ++ [(s0, e)])
                     ((to_span d <$> offs) ++ [mkSpan d s0 e]))) as (m' & -> & Hf & Hs & _).
      { split; simpl; [by destruct offs | by rewrite fmap_snoc]. }
      exists m'. split_and!; [done | by rewrite orb_true_r | done | done].
    + destruct (IH (Some (s, e))
                  (mkMerged (need_to_reparse m) (sen_offsets m ++ [(s, e)])
                     (sen_spans m ++ [mkSpan d s e]))) as (m' & -> & Hf & Hs & Ha).
      { split; simpl; [by destruct (sen_offsets m) | by rewrite fmap_snoc, Hsp]. }
      exists m'. simpl in *. split_and!; [done..|].
      intros Hno%Ha. by rewrite <- app_assoc in Hno.
Qed.

Section WithParser.
Variable spacy_nlp : str -> Doc.
Variable root : Span -> Z.
Variable tree : Type.
Variable Node : Doc -> Z -> tree.


Lemma reparse_spec spans st :
  reparse spacy_nlp root tree Node spans st
  = mkState tree
      (sentences tree st ++ ((fun sp => whole (reparsed spacy_nlp sp)) <$> spans))
      (trees tree st ++ ((fun sp => Node (reparsed spacy_nlp sp) (root (whole (reparsed spacy_nlp sp)))) <$> spans))
      (checked_docs tree st ++ (reparsed spacy_nlp <$> spans))
      (calls tree st ++ (span_text <$> spans)).
Proof.
  revert st. induction spans as [|sp r IH]; intros st; simpl.
  - rewrite !app_nil_r. by destruct st.
  - rewrite IH. simpl. by rewrite <- !app_assoc.
Qed.

Lemma keep_spec d spans st :
  keep root tree Node d spans st
  = mkState tree
      (sentences tree st ++ spans)
      (trees tree st ++ ((fun sp => Node d (root sp)) <$> spans))
      (checked_docs tree st)
      (calls tree st).
Proof.
  revert st. induction spans as [|sp r IH]; intros st; simpl.
  - rewrite !app_nil_r. by destruct st.
  - rewrite IH. simpl. by rewrite <- !app_assoc.
Qed.

(** C6.  When the loop of [generate_sentences] folds at least once, every
    span it accumulated has its text parsed again, in order, each sentence is
    the whole of the document parsed from its span, and each tree is built
    on that document. *)
Theorem reparse_after_fold text :
  (exists p c, adjacent (sents (spacy_nlp text)) p c
     /\ combine_with_previous (to_span (spacy_nlp text) p)
          (to_span (spacy_nlp text) c) = true) ->
  exists m,
    candidates_loop (spacy_nlp text) (sents (spacy_nlp text)) None
      (mkMerged false [] []) = Ok m
    /\ need_to_reparse m = true
    /\ init spacy_nlp root tree Node text
       = Ok (mkState tree
               ((fun sp => whole (reparsed spacy_nlp sp)) <$> sen_spans m)
               ((fun sp => Node (reparsed spacy_nlp sp) (root (whole (reparsed spacy_nlp sp))))
                  <$> sen_spans m)
               (reparsed spacy_nlp <$> sen_spans m)
               (text :: (span_text <$> sen_spans m))).
Proof.
  intros Hfold. set (d := spacy_nlp text) in *.
  destruct (candidates_loop_result d (sents d) None (mkMerged false [] []))
    as (m & Hm & Hflag & _); [done|].
  assert (need_to_reparse m = true) as Hre.
  { rewrite Hflag. simpl. by apply any_fold_spec. }
  exists m. split_and!; [done..|].
  unfold init, generate_sentences. fold d. simpl. unfold bind.
  rewrite Hm, Hre. by rewrite reparse_spec.
Qed.

Lemma chain_tokens (d : Doc) a b l :
  0 <= a -> chain false a b l ->
  List.concat ((fun p => span_tokens (to_span d p)) <$> l)
  = take (Z.to_nat (b - a)) (drop (Z.to_nat a) d).
Proof.
  revert a. induction l as [|[s e] r IH]; intros a Ha.
  - simpl. intros ->. by rewrite Z.sub_diag.
  - intros (-> & Hse & Hr). pose proof (chain_le _ _ _ _ Hr).
    change (List.concat ((fun p => span_tokens (to_span d p)) <$> (a, e) :: r))
      with (span_tokens (to_span d (a, e))
            ++ List.concat ((fun p => span_tokens (to_span d p)) <$> r)).
    rewrite (IH e) by (done || lia). unfold span_tokens, to_span. simpl.
    replace (Z.to_nat e) with (Z.to_nat a + Z.to_nat (e - a))%nat by lia.
    rewrite <- drop_drop, take_take_drop. f_equal. lia.
Qed.

(** C7.  When no candidate is folded, the parser is called for the initial
    text only, the sentences are the candidates as spans of the original
    document, and their tokens, in order, are the tokens of that document. *)
Theorem no_reparse_without_fold text :
  (forall p c, adjacent (sents (spacy_nlp text)) p c ->
     combine_with_previous (to_span (spacy_nlp text) p)
       (to_span (spacy_nlp text) c) = false) ->
  init spacy_nlp root tree Node text
  = Ok (mkState tree
          (to_span (spacy_nlp text) <$> sents (spacy_nlp text))
          ((fun p => Node (spacy_nlp text) (root (to_span (spacy_nlp text) p)))
             <$> sents (spacy_nlp text))
          [spacy_nlp text]
          [text])
  /\ List.concat ((fun p => span_tokens (to_span (spacy_nlp text) p))
                    <$> sents (spacy_nlp text))
     = spacy_nlp text.
Proof.
  intros Hno. set (d := spacy_nlp text) in *. split.
  - destruct (candidates_loop_result d (sents d) None (mkMerged false [] []))
      as (m & Hm & Hflag & Hsp & Hoff); [done|].
    assert (any_fold d None (sents d) = false) as Hnf.
    { apply not_true_iff_false. intros (p & c & Hadj & Hc)%any_fold_spec.
      rewrite (Hno p c Hadj) in Hc. done. }
    rewrite Hnf in Hflag. simpl in Hflag. specialize (Hoff Hnf). simpl in Hoff.
    unfold init, generate_sentences. simpl. fold d. unfold bind.
    rewrite Hm, Hflag, keep_spec. simpl. rewrite Hsp, Hoff.
    by rewrite <- list_fmap_compose.
  - rewrite (chain_tokens d 0 (doc_len d)); [|lia|apply chain_weaken, sents_chain].
    unfold doc_len. simpl. rewrite Z.sub_0_r, Nat2Z.id. by rewrite firstn_all.
Qed.

End WithParser.
End DocumentFacts.

(** ** The boundary merger and what it returns *)

Section MergerClaims.
Import Nlp.
Context {ucd : Unicode}.

Lemma last_cons_default {A B} (f : A -> B) (x : B) (c : A) (g : list A) :
  from_option f x (last (c :: g)) = from_option f (f c) (last g).
Proof.
  destruct g as [|c' g]; [done|]. rewrite last_cons_cons.
  destruct (last (c' :: g)) eqn:E; [done|]. by apply last_None in E.
Qed.

Lemma folded_singleton d p : Document.folded d [p].
Proof. split; [done|]. intros a b ([|i] & _ & Hb); done. Qed.

Lemma folded_cons d p c g :
  Document.combine_with_previous (to_span d p) (to_span d c) = true ->
  Document.folded d (c :: g) -> Document.folded d (p :: c :: g).
Proof.
  intros Hpc [_ Hg]. split; [done|]. intros a b Hadj.
  apply adjacent_cons in Hadj as [[-> Hh]|Hadj]; [|by apply Hg].
  simpl in Hh. by injection Hh as <-.
Qed.

(** The loop from a state whose last span is open: the candidates [g0] are
    folded into it, and the runs after them give one span each. *)
Lemma candidates_loop_runs d rest p flag offs s0 e0 :
  exists m g0 runs,
    Document.candidates_loop d rest (Some p)
      (Document.mkMerged flag (offs ++ [(s0, e0)])
         (to_span d <$> offs ++ [(s0, e0)])) = Ok m
    /\ rest = g0 ++ List.concat runs
    /\ Document.folded d (p :: g0)
    /\ Forall (Document.folded d) runs
    /\ (forall i g g',
          ((p :: g0) :: runs) !! i = Some g ->
          ((p :: g0) :: runs) !! S i = Some g' -> Document.apart d g g')
    /\ Document.sen_offsets m
       = offs ++ [(s0, from_option snd e0 (last g0))] ++ (Document.hull <$> runs)
    /\ Document.sen_spans m = to_span d <$> Document.sen_offsets m.
Proof.
  revert p flag offs s0 e0.
  induction rest as [|[s e] r IH]; intros p flag offs s0 e0.
  - exists (Document.mkMerged flag (offs ++ [(s0, e0)])
              (to_span d <$> offs ++ [(s0, e0)])), [], [].
    split_and!; [done | done | apply folded_singleton | constructor | | done | done].
    intros [|i] g g' _ Hg'; done.
  - cbn [Document.candidates_loop].
    assert (match p with
            | (p_start, p_end) =>
                Document.combine_with_previous (mkSpan d p_start p_end) (mkSpan d s e)
            end
            = Document.combine_with_previous (to_span d p) (to_span d (s, e)))
      as -> by (by destruct p).
    destruct (Document.combine_with_previous (to_span d p) (to_span d (s, e)))
      eqn:Hfold.
    + cbn [Document.sen_offsets Document.sen_spans].
      rewrite last_snoc, fmap_snoc, !set_last_snoc. cbn [bind].
      destruct (IH (s, e) true offs s0 e)
        as (m & g0 & runs & Hrun & Hrest & Hg0 & Hruns & Hapart & Hoff & Hsp).
      rewrite fmap_snoc in Hrun.
      exists m, ((s, e) :: g0), runs. split_and!; [done| | | done | | | done].
      * by rewrite Hrest.
      * by apply folded_cons.
      * intros [|i] g g' Hg Hg'.
        -- simpl in Hg. injection Hg as <-.
           intros a b Ha Hb. apply (Hapart 0%nat ((s, e) :: g0) g'); [done..| |done].
           by rewrite last_cons_cons in Ha.
        -- by apply (Hapart (S i)).
      * rewrite Hoff. by rewrite last_cons_default.
    + cbn [Document.sen_offsets Document.sen_spans Document.need_to_reparse].
      destruct (IH (s, e) flag (offs ++ [(s0, e0)]) s e)
        as (m & g0 & runs & Hrun & Hrest & Hg0 & Hruns & Hapart & Hoff & Hsp).
      rewrite fmap_snoc in Hrun.
      exists m, [], (((s, e) :: g0) :: runs).
      split_and!; [done| | apply folded_singleton | by constructor | | | done].
      * by rewrite Hrest.
      * intros [|i] g g' Hg Hg'.
        -- simpl in Hg, Hg'. injection Hg as <-. injection Hg' as <-.
           intros a b Ha Hb. simpl in Ha, Hb. by injection Ha as <-; injection Hb as <-.
        -- by apply (Hapart i).
      * rewrite Hoff, <- !app_assoc. cbn [last from_option fmap list_fmap app].
        unfold Document.hull at 2. cbn [head]. by rewrite last_cons_default.
Qed.

(** C1, amended.  [nlp.sentence_segmenter] appends every candidate: the
    answer of the classifier is discarded, so the first loop returns the
    candidates themselves, and it does return when no candidate has an empty
    text.  The loop of [Document.generate_sentences] never raises.  It asks
    the classifier about each candidate and the candidate before it in the
    parser's list, and what it returns is fixed by the answers: the
    candidates fall into runs, a candidate continuing the run of the one
    before it exactly when the classifier accepts the two, and the loop
    returns one span for each run, from the start of its first candidate to
    the end of its last one, the end of the last accumulated span having
    been extended for every accepted candidate and a new span appended for
    every other.  The flag is raised exactly when some pair was accepted. *)
Theorem boundary_merger :
  (forall d cands acc prev out,
     merge_loop d cands acc prev = Ok out -> out = acc ++ cands)
  /\ (forall d cands,
        Forall (good_span d) cands -> merge_loop d cands [] None = Ok cands)
  /\ (forall d cands,
        exists m runs,
          Document.candidates_loop d cands None (Document.mkMerged false [] [])
          = Ok m
          /\ List.concat runs = cands
          /\ Forall (Document.folded d) runs
          /\ (forall i g g', runs !! i = Some g -> runs !! S i = Some g' ->
                Document.apart d g g')
          /\ Document.sen_offsets m = Document.hull <$> runs
          /\ Document.sen_spans m = to_span d <$> Document.sen_offsets m
          /\ (Document.need_to_reparse m = true <->
              exists p c, adjacent cands p c
                /\ Document.combine_with_previous (to_span d p) (to_span d c)
                   = true)).
Proof.
  split_and!.
  - apply merge_loop_appends.
  - intros d cands Hgood. by apply (merge_loop_total d cands [] None).
  - intros d cands.
    destruct (candidates_loop_result d cands None (Document.mkMerged false [] []))
      as (m & Hm & Hflag & _ & _); [done|].
    assert (Document.need_to_reparse m = true <->
            exists p c, adjacent cands p c
              /\ Document.combine_with_previous (to_span d p) (to_span d c) = true)
      as Hiff by (rewrite Hflag; simpl; apply any_fold_spec).
    exists m. destruct cands as [|[s e] r].
    + exists []. simpl in Hm. injection Hm as <-.
      split_and!; [done | done | constructor | | done | done | done].
      intros i g g' Hg. by rewrite lookup_nil in Hg.
    + cbn [Document.candidates_loop] in Hm.
      cbn [Document.sen_offsets Document.sen_spans Document.need_to_reparse] in Hm.
      destruct (candidates_loop_runs d r (s, e) false [] s e)
        as (m' & g0 & runs & Hrun & Hrest & Hg0 & Hruns & Hapart & Hoff & Hsp).
      simpl in Hrun, Hm. unfold to_span in Hrun at 1. simpl in Hrun.
      rewrite Hrun in Hm. injection Hm as ->.
      exists (((s, e) :: g0) :: runs).
      split_and!; [done | | by constructor | done | | done | done].
      * simpl. by rewrite Hrest.
      * rewrite Hoff. simpl. unfold Document.hull at 2. cbn [head].
        by rewrite last_cons_default.
Qed.

End MergerClaims.

(** ** [Object.set] and [Object.get] *)

Section ObjectClaims.
Import Objects.

(** C8, amended.  On an [Object] whose [_value_] exists, [set(key, val)]
    followed by [get(key)] returns [val]; [get] of a key that has no entry
    returns [False] and never raises, also when [_value_] is missing; [set]
    on an [Object] whose [_value_] is missing raises [AttributeError]. *)
Theorem set_then_get :
  (forall m key val,
     exists o', set (mkObject (Some m)) key val = Ok o'
                /\ (get o' key).2 = val /\ (get o' key).1 = o')
  /\ (forall self key,
        (forall m, _value_ self = Some m -> m !! key = None) ->
        (get self key).2 = PyBool false)
  /\ (forall key val, set (mkObject None) key val = Raise AttributeError).
Proof.
  split_and!.
  - intros m key val. eexists. split; [reflexivity|].
    unfold get. simpl. by rewrite lookup_insert_eq.
  - intros [[m|]] key Hnone; unfold get; simpl; [|done].
    by rewrite (Hnone m eq_refl).
  - reflexivity.
Qed.

(** A key without entry in a store that holds another key. *)
Lemma set_then_get_witness :
  (get (mkObject (Some {["verbose" := PyBool true]})) "normalize").2 = PyBool false.
Proof.
  apply (proj1 (proj2 set_then_get)).
  intros m [= <-]. simpl. reflexivity.
Defined.

(** C8 as stated fails on an [Object] that has no [_value_] yet. *)
Lemma set_then_get_counterexample :
  set (mkObject None) "verbose" (PyBool true) = Raise AttributeError.
Proof. reflexivity. Qed.

End ObjectClaims.

(** ** The properties on the example documents *)

Section Witnesses.
Import Nlp Examples.
Local Existing Instance latin1.

Lemma tokens_nonempty_doc_blank : tokens_nonempty doc_blank.
Proof. repeat constructor; discriminate. Qed.


(** "Ok." after "Hello world.": the rule of nlp.py does not fire. *)
Lemma short_fragment_rule_witness :
  end_ (mkSpan doc_capitalized 3 5) - start (mkSpan doc_capitalized 3 5) < 3
  /\ str_first (span_text (mkSpan doc_capitalized 3 5)) = Ok (ord "O")
  /\ isupper (ord "O") = true
  /\ combine_rule (mkSpan doc_capitalized 0 3) (mkSpan doc_capitalized 3 5)
     <> Ok (Some ShortFragment).
Proof.
  split_and!; [reflexivity..|].
  apply (proj1 (proj2 short_fragment_rule)
           (mkSpan doc_capitalized 0 3) (mkSpan doc_capitalized 3 5) (ord "O"));
    [reflexivity..|].
  rewrite <- has_close_paren_spec. discriminate.
Defined.

(** C3 as stated fails for [Document.combine_with_previous]: "Ok." has two
    tokens and starts with an uppercase letter, "Hello world." has no closing
    parenthesis, and the rule fires. *)
Lemma short_fragment_rule_counterexample :
  end_ (mkSpan doc_capitalized 3 5) - start (mkSpan doc_capitalized 3 5) < 3
  /\ str_first (span_text (mkSpan doc_capitalized 3 5)) = Ok (ord "O")
  /\ isupper (ord "O") = true
  /\ has_close_paren (span_text (mkSpan doc_capitalized 0 3)) = false
  /\ Document.combine_rule (mkSpan doc_capitalized 0 3) (mkSpan doc_capitalized 3 5)
     = Some Document.TooShort
  /\ Document.combine_with_previous
       (mkSpan doc_capitalized 0 3) (mkSpan doc_capitalized 3 5) = true.
Proof. split_and!; reflexivity. Qed.

Lemma ends_punct_alnum_glued :
  ends_punct_alnum (span_text (mkSpan doc_glued 0 3)).
Proof.
  exists (chars "Hi"), (ord "."), (chars "ok").
  split_and!; [reflexivity | reflexivity | simpl; lia | simpl; lia |].
  repeat (apply List.Forall_cons; [reflexivity|]). apply List.Forall_nil.
Qed.

(** "Hi.ok" ends in a terminal mark and two letters: the rule does not fire. *)
Lemma no_ending_punctuation_rule_witness :
  ends_punct_alnum (span_text (mkSpan doc_glued 0 3))
  /\ combine_rule (mkSpan doc_glued 0 3) (mkSpan doc_glued 3 6)
     <> Ok (Some NoEndingPunctuation)
  /\ Document.combine_rule (mkSpan doc_glued 0 3) (mkSpan doc_glued 3 6)
     <> Some Document.NoEndingPunctuation.
Proof.
  split; [exact ends_punct_alnum_glued|].
  apply (proj2 (proj2 (proj2 (proj2 no_ending_punctuation_rule)))).
  exact ends_punct_alnum_glued.
Defined.

(** C4 as stated fails: "Hi.ok" ends in a terminal mark followed by two
    letters, the test of the rule is false, and both classifiers return
    [False] for ("Hi.ok", "See you."). *)
Lemma no_ending_punctuation_rule_counterexample :
  span_text (mkSpan doc_glued 0 3) = chars "Hi.ok"
  /\ ends_punct_alnum (span_text (mkSpan doc_glued 0 3))
  /\ negb (ending_punctuation (span_text (mkSpan doc_glued 0 3))) = false
  /\ combine_rule (mkSpan doc_glued 0 3) (mkSpan doc_glued 3 6) = Ok None
  /\ combine_with_previous (mkSpan doc_glued 0 3) (mkSpan doc_glued 3 6) = Ok false
  /\ Document.combine_with_previous (mkSpan doc_glued 0 3) (mkSpan doc_glued 3 6)
     = false.
Proof.
  split_and!; try reflexivity. exact ends_punct_alnum_glued.
Qed.

(** The shift on "A." followed by two spaces. *)
Lemma whitespace_shift_witness :
  is_sentenced doc_blank = true
  /\ tokens_nonempty doc_blank
  /\ exists out,
       sentence_segmenter doc_blank = Ok out
       /\ List.length out = List.length (sents doc_blank)
       /\ (forall i s e, sents doc_blank !! i = Some (s, e) ->
             out !! i = Some (s + bump doc_blank s, e + bump doc_blank e))
       /\ (forall k, (bump doc_blank k = 0 \/ bump doc_blank k = 1)
             /\ (bump doc_blank k = 1 <->
                 0 < k /\ exists t, doc_blank !! Z.to_nat k = Some t
                      /\ Forall (fun c => isspace c = true) (text t)))
       /\ (forall i s e, sents doc_blank !! i = Some (s, e) ->
             (s + bump doc_blank s < e + bump doc_blank e
              <-> ~ (e = s + 1 /\ bump doc_blank s = 1 /\ bump doc_blank e = 0))).
Proof.
  split; [reflexivity|]. split; [exact tokens_nonempty_doc_blank|].
  apply (whitespace_shift doc_blank eq_refl), tokens_nonempty_doc_blank.
Defined.

(** C5 as stated fails: the candidate (2,3) is one blank token; it is moved
    to the span before, and the span (3,3) that remains is empty. *)
Lemma whitespace_shift_counterexample :
  sents doc_blank = [(0, 2); (2, 3)]
  /\ (exists t, doc_token doc_blank 2 = Ok t /\ is_blank (text t) = true)
  /\ sentence_segmenter doc_blank = Ok [(0, 3); (3, 3)].
Proof.
  split_and!; [reflexivity | | reflexivity].
  eexists. split; reflexivity.
Qed.

(** "Hi.ok See you." with the toy parser: a fold, then one more parse. *)
Lemma reparse_after_fold_witness :
  (exists p c, adjacent (sents (toy_parser (chars "Hi.ok See you."))) p c
     /\ Document.combine_with_previous
          (to_span (toy_parser (chars "Hi.ok See you.")) p)
          (to_span (toy_parser (chars "Hi.ok See you.")) c) = true)
  /\ exists m,
       Document.candidates_loop (toy_parser (chars "Hi.ok See you."))
         (sents (toy_parser (chars "Hi.ok See you."))) None
         (Document.mkMerged false [] []) = Ok m
       /\ Document.need_to_reparse m = true
       /\ Document.init toy_parser toy_root (Doc * Z)%type pair (chars "Hi.ok See you.")
          = Ok (Document.mkState (Doc * Z)%type
                  ((fun sp => whole (Document.reparsed toy_parser sp))
                     <$> Document.sen_spans m)
                  ((fun sp => (Document.reparsed toy_parser sp,
                               toy_root (whole (Document.reparsed toy_parser sp))))
                     <$> Document.sen_spans m)
                  (Document.reparsed toy_parser <$> Document.sen_spans m)
                  ((chars "Hi.ok See you.") :: (span_text <$> Document.sen_spans m))).
Proof.
  assert (exists p c, adjacent (sents (toy_parser (chars "Hi.ok See you."))) p c
     /\ Document.combine_with_previous
          (to_span (toy_parser (chars "Hi.ok See you.")) p)
          (to_span (toy_parser (chars "Hi.ok See you.")) c) = true) as H.
  { exists (0, 2), (2, 3). split; [|reflexivity].
    exists 0%nat. split; reflexivity. }
  split; [exact H|].
  exact (reparse_after_fold toy_parser toy_root (Doc * Z)%type pair
           (chars "Hi.ok See you.") H).
Defined.

Lemma no_fold_in_doc_plain p c :
  adjacent (sents (toy_parser (chars "Hello world. It is ok."))) p c ->
  Document.combine_with_previous
    (to_span (toy_parser (chars "Hello world. It is ok.")) p)
    (to_span (toy_parser (chars "Hello world. It is ok.")) c) = false.
Proof.
  intros ([|[|i]] & Hp & Hc); simpl in Hp, Hc; try discriminate.
  injection Hp as <-. injection Hc as <-. reflexivity.
Qed.

(** "Hello world. It is ok." with the toy parser: no fold, one parse. *)
Lemma no_reparse_without_fold_witness :
  Document.init toy_parser toy_root (Doc * Z)%type pair (chars "Hello world. It is ok.")
  = Ok (Document.mkState (Doc * Z)%type
          [mkSpan doc_plain 0 3; mkSpan doc_plain 3 7]
          [(doc_plain, 0); (doc_plain, 3)]
          [doc_plain]
          [(chars "Hello world. It is ok.")])
  /\ List.concat
       ((fun p => span_tokens (to_span (toy_parser (chars "Hello world. It is ok.")) p))
          <$> sents (toy_parser (chars "Hello world. It is ok.")))
     = toy_parser (chars "Hello world. It is ok.").
Proof.
  exact (no_reparse_without_fold toy_parser toy_root (Doc * Z)%type pair
           (chars "Hello world. It is ok.") no_fold_in_doc_plain).
Defined.

(** Two sentences of [doc_plain], and the empty span [doc_plain[2:2]]. *)
Lemma classifier_total_on_nonempty_texts_witness :
  (exists b, combine_with_previous
               (mkSpan doc_plain 0 3) (mkSpan doc_plain 3 7) = Ok b)
  /\ (span_text (mkSpan doc_plain 2 2) = []
      /\ combine_with_previous (mkSpan doc_plain 0 3) (mkSpan doc_plain 2 2)
         = Raise IndexError).
Proof.
  split.
  - apply (proj1 classifier_total_on_nonempty_texts); discriminate.
  - split; [reflexivity|].
    apply (proj2 classifier_total_on_nonempty_texts).
    + unfold span_wf, doc_len. simpl. lia.
    + repeat constructor; discriminate.
    + reflexivity.
Defined.

(** The marks on "a.  b". *)
Lemma set_sentence_starts_marks_witness :
  sentence_segmenter doc_blank_before_last = Ok [(0, 3); (3, 4)]
  /\ exists d',
       set_sentence_starts doc_blank_before_last = Ok d'
       /\ List.length d' = List.length doc_blank_before_last
       /\ (forall i t, doc_blank_before_last !! i = Some t ->
             (S i < List.length doc_blank_before_last)%nat ->
             exists t', d' !! i = Some t'
               /\ text t' = text t /\ whitespace_ t' = whitespace_ t
               /\ ((exists e, (Z.of_nat i, e) ∈ [(0, 3); (3, 4)]) ->
                   is_sent_start t' = Some true)
               /\ (~ (exists e, (Z.of_nat i, e) ∈ [(0, 3); (3, 4)]) ->
                   is_sent_start t' = None))
       /\ last d' = last doc_blank_before_last.
Proof.
  split; [reflexivity|].
  apply (set_sentence_starts_marks doc_blank_before_last [(0, 3); (3, 4)]).
  reflexivity.
Defined.

(** A segment starts at the last token, index 3, whose mark stays [None]. *)
Example last_token_not_marked :
  sentence_segmenter doc_blank_before_last = Ok [(0, 3); (3, 4)]
  /\ (fmap is_sent_start <$> (last <$>
        match set_sentence_starts doc_blank_before_last with
        | Ok d' => Some d'
        | Raise _ => None
        end)) = Some (Some None).
Proof. split; vm_compute; reflexivity. Qed.

Lemma good_spans_doc_lowercase :
  Forall (good_span doc_lowercase) (sents doc_lowercase).
Proof. repeat constructor; discriminate. Qed.

(** On "Hello world. ok." the first loop of nlp.py returns both candidates;
    on "Hi.ok See you." the loop of document.py returns one span for each run
    of its candidates. *)
Lemma boundary_merger_witness :
  Forall (good_span doc_lowercase) (sents doc_lowercase)
  /\ merge_loop doc_lowercase (sents doc_lowercase) [] None = Ok [(0, 3); (3, 5)]
  /\ exists m runs,
       Document.candidates_loop doc_glued (sents doc_glued) None
         (Document.mkMerged false [] []) = Ok m
       /\ List.concat runs = sents doc_glued
       /\ Forall (Document.folded doc_glued) runs
       /\ (forall i g g', runs !! i = Some g -> runs !! S i = Some g' ->
             Document.apart doc_glued g g')
       /\ Document.sen_offsets m = Document.hull <$> runs
       /\ Document.sen_spans m = to_span doc_glued <$> Document.sen_offsets m
       /\ (Document.need_to_reparse m = true <->
           exists p c, adjacent (sents doc_glued) p c
             /\ Document.combine_with_previous (to_span doc_glued p)
                  (to_span doc_glued c) = true).
Proof.
  split; [exact good_spans_doc_lowercase|]. split.
  - apply (proj1 (proj2 boundary_merger) doc_lowercase (sents doc_lowercase)).
    exact good_spans_doc_lowercase.
  - apply (proj2 (proj2 boundary_merger) doc_glued (sents doc_glued)).
Defined.

(** C1 as stated fails.  On "Hello world. ok." the classifier of nlp.py
    accepts the pair, the specified merger folds it and the code keeps both
    candidates.  On "Hi.ok See you." the loop of document.py folds all three
    candidates, where the specified merger, asking about the accumulated
    "Hi.ok", keeps "See you." apart. *)
Lemma boundary_merger_counterexample :
  (merge_loop doc_lowercase (sents doc_lowercase) [] None = Ok [(0, 3); (3, 5)]
   /\ merger_spec combine_with_previous doc_lowercase (sents doc_lowercase) []
      = Ok [(0, 5)])
  /\ (Document.candidates_loop doc_glued (sents doc_glued) None
        (Document.mkMerged false [] [])
      = Ok (Document.mkMerged true [(0, 6)] [mkSpan doc_glued 0 6])
      /\ merger_spec (fun p c => Ok (Document.combine_with_previous p c))
           doc_glued (sents doc_glued) []
         = Ok [(0, 3); (3, 6)]).
Proof. repeat split; reflexivity. Qed.

(** "été." after "Hello world.": two tokens, the first character lowercase
    and not ASCII; the short-fragment rule of nlp.py fires. *)
Example short_fragment_not_ascii :
  str_first (span_text (mkSpan doc_accent 3 5)) = Ok 233
  /\ islower 233 = true
  /\ combine_rule (mkSpan doc_accent 0 3) (mkSpan doc_accent 3 5)
     = Ok (Some ShortFragment)
  /\ combine_with_previous (mkSpan doc_accent 0 3) (mkSpan doc_accent 3 5)
     = Ok true.
Proof. split_and!; reflexivity. Qed.

(** "Hi.", a no-break space and "a": white space and then a letter after the
    terminal mark, so the last rule fires; "Hi." in quotation marks ends in a
    terminal mark and one character that is not white space, so it does not. *)
Example no_ending_punctuation_not_ascii :
  span_text (mkSpan doc_nbsp_tail 0 4) = chars "Hi." ++ [160] ++ chars "a"
  /\ combine_rule (mkSpan doc_nbsp_tail 0 4) (mkSpan doc_nbsp_tail 4 7)
     = Ok (Some NoEndingPunctuation)
  /\ Document.combine_rule (mkSpan doc_nbsp_tail 0 4) (mkSpan doc_nbsp_tail 4 7)
     = Some Document.NoEndingPunctuation
  /\ span_text (mkSpan doc_quoted 0 4) = [8220] ++ chars "Hi." ++ [8221]
  /\ combine_rule (mkSpan doc_quoted 0 4) (mkSpan doc_quoted 4 7) = Ok None
  /\ Document.combine_rule (mkSpan doc_quoted 0 4) (mkSpan doc_quoted 4 7) = None.
Proof. split_and!; reflexivity. Qed.

(** A candidate that starts with a no-break space gives it to the candidate
    before it. *)
Example whitespace_shift_not_ascii :
  sents doc_nbsp = [(0, 2); (2, 4)]
  /\ sentence_segmenter doc_nbsp = Ok [(0, 3); (3, 4)].
Proof. split; reflexivity. Qed.

End Witnesses.

(** ** The option store of [Object] *)

Section ObjectStore.
Import Objects.

Lemma get_snd self key : (get self key).2 = value_in (store self) key.
Proof.
  unfold get, store, value_in. destruct (_value_ self) as [m|]; simpl.
  - by destruct (m !! key).
  - by rewrite lookup_empty.
Qed.

Lemma get_fst self key : (get self key).1 = ensure_value self.
Proof.
  unfold get, ensure_value. destruct (_value_ self) as [m|]; simpl; [|done].
  by destruct (m !! key).
Qed.

Lemma store_ensure_value self : store (ensure_value self) = store self.
Proof. by destruct self as [[m|]]. Qed.

Lemma set_ensure_value self key val :
  set (ensure_value self) key val
  = Ok (mkObject (Some (<[key := val]> (store self)))).
Proof. by destruct self as [[m|]]. Qed.

Lemma store_mk m : store (mkObject (Some m)) = m.
Proof. reflexivity. Qed.

Lemma ensure_value_idem self m : _value_ self = Some m -> ensure_value self = self.
Proof. unfold ensure_value. by intros ->. Qed.

Lemma dict_get_cons_eq k v (d : pydict) : dict_get ((k, v) :: d) k = Some v.
Proof. simpl. by rewrite String.eqb_refl. Qed.

Lemma dict_get_cons_ne k k' v (d : pydict) :
  k <> k' -> dict_get ((k, v) :: d) k' = dict_get d k'.
Proof. intros Hne. simpl. by destruct (String.eqb_spec k k'). Qed.

Lemma dict_get_None (d : pydict) k : k ∉ d.*1 -> dict_get d k = None.
Proof.
  induction d as [|[k0 v0] d IH]; [done|]. intros Hn.
  rewrite fmap_cons, not_elem_of_cons in Hn. destruct Hn as [Hne Hn].
  rewrite dict_get_cons_ne by done. by apply IH.
Qed.

Lemma dict_get_Some (d : pydict) k v :
  NoDup d.*1 -> (k, v) ∈ d -> dict_get d k = Some v.
Proof.
  induction d as [|[k0 v0] d IH]; intros Hnd Hin; [by apply elem_of_nil in Hin|].
  rewrite fmap_cons in Hnd. apply NoDup_cons in Hnd as [Hk0 Hnd].
  apply elem_of_cons in Hin as [[= -> ->]|Hin].
  - apply dict_get_cons_eq.
  - rewrite dict_get_cons_ne; [by apply IH|].
    intros ->. apply Hk0. apply list_elem_of_fmap. by exists (k, v).
Qed.

(** The store after the loop of [set_defaults]. *)
Lemma set_defaults_loop_store (d : pydict) self :
  NoDup d.*1 ->
  exists self',
    set_defaults_loop self d = Ok self'
    /\ (d <> [] -> _value_ self' = Some (store self'))
    /\ (d = [] -> self' = self)
    /\ forall k,
         store self' !! k
         = match dict_get d k with
           | Some v => if truthy (value_in (store self) k) then store self !! k
                       else Some v
           | None => store self !! k
           end.
Proof.
  revert self. induction d as [|[param v] rest IH]; intros self Hnd.
  - exists self. by split_and!.
  - rewrite fmap_cons in Hnd. apply NoDup_cons in Hnd as [Hparam Hnd].
    cbn [set_defaults_loop].
    rewrite (surjective_pairing (get self param)), get_fst, get_snd.
    destruct (truthy (value_in (store self) param)) eqn:Htr.
    + destruct (IH (ensure_value self) Hnd) as (self' & Hrun & Hval & Hnil & Hst).
      exists self'. split_and!; [done| |done|].
      * intros _. destruct rest as [|p rest'].
        -- rewrite (Hnil eq_refl). by destruct self as [[m|]].
        -- by apply Hval.
      * intros k. rewrite Hst, store_ensure_value.
        destruct (String.eqb_spec param k) as [<-|Hne].
        -- rewrite dict_get_cons_eq, Htr. by rewrite dict_get_None.
        -- by rewrite dict_get_cons_ne.
    + rewrite set_ensure_value. cbn [bind].
      destruct (IH (mkObject (Some (<[param := v]> (store self)))) Hnd)
        as (self' & Hrun & Hval & Hnil & Hst).
      exists self'. split_and!; [done| |done|].
      * intros _. destruct rest as [|p rest'].
        -- by rewrite (Hnil eq_refl).
        -- by apply Hval.
      * intros k. rewrite Hst, !store_mk.
        destruct (String.eqb_spec param k) as [<-|Hne].
        -- rewrite dict_get_cons_eq, Htr, (dict_get_None rest) by done.
           by rewrite lookup_insert_eq.
        -- rewrite dict_get_cons_ne by done.
           unfold value_in. rewrite !lookup_insert_ne by done. done.
Qed.

Lemma value_in_defaulted (d : pydict) m m' :
  (forall k, m' !! k
             = match dict_get d k with
               | Some v => if truthy (value_in m k) then m !! k else Some v
               | None => m !! k
               end) ->
  forall k, value_in m' k = defaulted (Some d) k (value_in m k).
Proof.
  intros H k. unfold defaulted, value_in at 1. rewrite H.
  destruct (dict_get d k) as [v|]; [|done].
  by destruct (truthy (value_in m k)).
Qed.

(** X2.  [set_defaults] never raises, not even on an object without
    [_value_]; afterwards a key of [default] has its old value when that was
    true in a condition and the default value otherwise, and every other key
    reads as before. *)
Theorem set_defaults_fills_falsy self (d : pydict) :
  NoDup d.*1 ->
  exists self',
    set_defaults self (Some d) = Ok self'
    /\ forall key, (get self' key).2 = defaulted (Some d) key (get self key).2.
Proof.
  intros Hnd. destruct (set_defaults_loop_store d self Hnd) as (self' & Hrun & _ & _ & Hst).
  exists self'. split; [done|]. intros key. rewrite !get_snd.
  by apply value_in_defaulted.
Qed.

(** X3.  Applying the same defaults a second time changes nothing. *)
Theorem set_defaults_idempotent self self' (d : pydict) :
  NoDup d.*1 ->
  set_defaults self (Some d) = Ok self' ->
  set_defaults self' (Some d) = Ok self'.
Proof.
  intros Hnd Hrun.
  destruct (set_defaults_loop_store d self Hnd) as (s1 & Hrun1 & Hval & Hnil & Hst).
  simpl in Hrun. rewrite Hrun1 in Hrun. injection Hrun as ->.
  simpl. destruct (decide (d = [])) as [->|Hne]; [done|].
  specialize (Hval Hne). destruct self' as [[m|]]; [clear Hval|done].
  rewrite store_mk in Hst.
  assert (forall items : pydict,
            (forall k v, (k, v) ∈ items ->
               truthy (value_in m k) = true \/ m !! k = Some v) ->
            set_defaults_loop (mkObject (Some m)) items = Ok (mkObject (Some m)))
    as Hfix.
  { induction items as [|[k v] items IH]; intros Hall; [done|].
    cbn [set_defaults_loop].
    rewrite (surjective_pairing (get (mkObject (Some m)) k)), get_fst, get_snd.
    rewrite store_mk. change (ensure_value (mkObject (Some m))) with (mkObject (Some m)).
    assert (set_defaults_loop (mkObject (Some m)) items = Ok (mkObject (Some m)))
      as Hrest.
    { apply IH. intros k' v' Hin. apply Hall. by right. }
    destruct (Hall k v) as [Htr|Hin]; [by left| |].
    - by rewrite Htr.
    - destruct (truthy (value_in m k)); [done|].
      unfold set. cbn [_value_ bind]. by rewrite insert_id. }
  apply Hfix. intros k v Hin.
  rewrite (value_in_defaulted d (store self) m Hst k), Hst.
  unfold defaulted. rewrite (dict_get_Some d k v Hnd Hin).
  destruct (truthy (value_in (store self) k)) eqn:Htr; [by left | by right].
Qed.

(** X1.  Once [set] has succeeded, [get] no longer changes the object;
    [set] on one key leaves every other key as it was, and of two [set] on
    the same key the second one is read back. *)
Theorem set_get_other_keys self key val self' :
  set self key val = Ok self' ->
  (forall key', (get self' key').1 = self')
  /\ (forall key', key' <> key -> (get self' key').2 = (get self key').2)
  /\ (forall val2, exists self'',
        set self' key val2 = Ok self''
        /\ (get self'' key).2 = val2
        /\ forall key', key' <> key -> (get self'' key').2 = (get self key').2).
Proof.
  destruct self as [[m|]]; [|done]. intros [= <-]. split_and!.
  - intros key'. by rewrite get_fst.
  - intros key' Hne. rewrite !get_snd, !store_mk. unfold value_in.
    by rewrite lookup_insert_ne.
  - intros val2. eexists. split; [reflexivity|]. split.
    + rewrite get_snd, store_mk. unfold value_in. by rewrite lookup_insert_eq.
    + intros key' Hne. rewrite !get_snd, !store_mk. unfold value_in.
      by rewrite !lookup_insert_ne.
Qed.

Lemma absorb_store skip (d : pydict) self :
  NoDup d.*1 -> _value_ self = Some (store self) ->
  exists self',
    absorb skip self d = Ok self'
    /\ _value_ self' = Some (store self')
    /\ forall k, value_in (store self') k = absorbed skip d k (value_in (store self) k).
Proof.
  revert self. induction d as [|[key val] rest IH]; intros self Hnd Hval.
  - exists self. split_and!; [done..|]. intros k. unfold absorbed. simpl.
    by destruct (skip k).
  - rewrite fmap_cons in Hnd. apply NoDup_cons in Hnd as [Hkey Hnd].
    cbn [absorb]. destruct (skip key) eqn:Hskip.
    + destruct (IH self Hnd Hval) as (self' & Hrun & Hval' & Hst).
      exists self'. split_and!; [done..|]. intros k. rewrite Hst.
      unfold absorbed. destruct (String.eqb_spec key k) as [<-|Hne].
      * by rewrite Hskip.
      * by rewrite dict_get_cons_ne.
    + unfold set. rewrite Hval. cbn [bind].
      destruct (IH (mkObject (Some (<[key := val]> (store self)))) Hnd eq_refl)
        as (self' & Hrun & Hval' & Hst).
      exists self'. split_and!; [done..|]. intros k. rewrite Hst, store_mk.
      unfold absorbed, value_in. destruct (String.eqb_spec key k) as [<-|Hne].
      * rewrite Hskip, dict_get_cons_eq, (dict_get_None rest) by done.
        by rewrite lookup_insert_eq.
      * rewrite dict_get_cons_ne by done. by rewrite lookup_insert_ne.
Qed.

Lemma ensure_value_some self :
  _value_ (ensure_value self) = Some (store (ensure_value self)).
Proof. by destruct self as [[m|]]. Qed.

Lemma mkdirs_store mkdir self :
  _value_ self = Some (store self) ->
  mkdirs mkdir self
  = (let! _ := mkdir (get self "output_dir").2 in
     let! _ := mkdir (get self "model_dir").2 in
     Ok self).
Proof.
  intros Hval. unfold mkdirs.
  destruct (get self "output_dir") as [self1 out] eqn:Hout.
  assert (self1 = self) as ->.
  { change self1 with (self1, out).1. rewrite <-Hout, get_fst.
    by apply (ensure_value_idem _ _ Hval). }
  cbn [snd]. destruct (mkdir out) as [[]|e]; [|done]. cbn [bind].
  destruct (get self "model_dir") as [self2 md] eqn:Hmd.
  assert (self2 = self) as ->.
  { change self2 with (self2, md).1. rewrite <-Hmd, get_fst.
    by apply (ensure_value_idem _ _ Hval). }
  done.
Qed.

Lemma set_options_value mkdir skip (items : pydict) self default :
  NoDup items.*1 ->
  (forall d, default = Some d -> NoDup d.*1) ->
  exists self',
    (let! self1 := absorb skip (ensure_value self) items in
     let! self2 := set_defaults self1 default in
     mkdirs mkdir self2)
    = (let! _ := mkdir (get self' "output_dir").2 in
       let! _ := mkdir (get self' "model_dir").2 in
       Ok self')
    /\ forall key,
         (get self' key).2
         = defaulted default key (absorbed skip items key (get self key).2).
Proof.
  intros Hnd Hdef.
  destruct (absorb_store skip items (ensure_value self) Hnd (ensure_value_some self))
    as (self1 & -> & Hval1 & Hst1).
  cbn [bind]. rewrite store_ensure_value in Hst1.
  assert (exists self2, set_defaults self1 default = Ok self2
            /\ _value_ self2 = Some (store self2)
            /\ forall key, value_in (store self2) key
                           = defaulted default key (value_in (store self1) key))
    as (self2 & -> & Hval2 & Hst2).
  { destruct default as [d|].
    - destruct (set_defaults_loop_store d self1 (Hdef d eq_refl))
        as (self2 & Hrun & Hsome & Hnil & Hst).
      exists self2. split_and!; [done| |by apply value_in_defaulted].
      destruct d as [|p d]; [by rewrite (Hnil eq_refl)|]. by apply Hsome.
    - by exists self1. }
  cbn [bind]. exists self2. split; [by apply mkdirs_store|].
  intros key. rewrite !get_snd, Hst2, Hst1. done.
Qed.

(** X4.  [set_options] with a [dict] raises only when [mkdir] raises, on the
    value of "output_dir" or of "model_dir".  By then a key reads as the
    value the dict gives it, except that the key "input" is not taken over,
    and as its earlier value when the dict does not give one; a value that
    is false in a condition has been replaced by the default of the key,
    when there is one. *)
Theorem set_options_dict mkdir self (options : pydict) default :
  NoDup options.*1 ->
  (forall d, default = Some d -> NoDup d.*1) ->
  exists self',
    set_options mkdir self (OptDict options) default
    = (let! _ := mkdir (get self' "output_dir").2 in
       let! _ := mkdir (get self' "model_dir").2 in
       Ok self')
    /\ forall key,
         (get self' key).2
         = defaulted default key
             (absorbed skip_dict options key (get self key).2).
Proof. apply set_options_value. Qed.

Lemma dict_get_map_to_list (m : gmap string pyval) k :
  dict_get (map_to_list m) k = m !! k.
Proof.
  destruct (m !! k) as [v|] eqn:E.
  - apply dict_get_Some; [apply NoDup_fst_map_to_list|].
    by apply elem_of_map_to_list.
  - apply dict_get_None. intros ([k' v] & -> & Hin)%list_elem_of_fmap.
    apply elem_of_map_to_list in Hin. simpl in E. congruence.
Qed.

(** X5.  [set_options] with an [Options] object raises [AttributeError] when
    that object has no [_value_]; otherwise it takes over every key of the
    object except "input", "options" and the keys that start with an
    underscore, applies the defaults as for a [dict], and raises only when
    [mkdir] does. *)
Theorem set_options_from_options mkdir self (o : Object) default :
  (forall d, default = Some d -> NoDup d.*1) ->
  (_value_ o = None ->
   set_options mkdir self (OptOptions o) default = Raise AttributeError)
  /\ (forall m, _value_ o = Some m ->
      exists self',
        set_options mkdir self (OptOptions o) default
        = (let! _ := mkdir (get self' "output_dir").2 in
           let! _ := mkdir (get self' "model_dir").2 in
           Ok self')
        /\ forall key,
             (get self' key).2
             = defaulted default key
                 (if skip_options key then (get self key).2
                  else match m !! key with
                       | Some v => v
                       | None => (get self key).2
                       end)).
Proof.
  intros Hdef. split.
  - intros Hnone. unfold set_options. by rewrite Hnone.
  - intros m Hm. unfold set_options. rewrite Hm.
    destruct (set_options_value mkdir skip_options (map_to_list m) self default)
      as (self' & Hrun & Hget); [apply NoDup_fst_map_to_list | done |].
    exists self'. split; [done|]. intros key. rewrite Hget.
    unfold absorbed. by rewrite dict_get_map_to_list.
Qed.

Lemma done_step self caller :
  done self caller
  = match add_one (value_in (store self) ("_DONE_" +:+ caller)) with
    | Some n =>
        Done (mkObject (Some (<["_DONE_" +:+ caller := n]> (store self))))
          (value_in (store self) ("_DONE_" +:+ caller))
    | None => DoneTypeError
    end.
Proof.
  unfold done.
  rewrite (surjective_pairing (get self ("_DONE_" +:+ caller))), get_fst, get_snd.
  destruct (add_one _); [|done]. by rewrite set_ensure_value.
Qed.

Lemma done_times_from (n : nat) self caller (z : Z) :
  value_in (store self) ("_DONE_" +:+ caller) = PyInt z ->
  exists self',
    done_times n self caller
    = Some (self', (fun i => PyInt (z + Z.of_nat i)) <$> seq 0 n)
    /\ value_in (store self') ("_DONE_" +:+ caller) = PyInt (z + Z.of_nat n)
    /\ forall key, key <> "_DONE_" +:+ caller ->
         value_in (store self') key = value_in (store self) key.
Proof.
  revert self z. induction n as [|n IH]; intros self z Hz.
  - exists self. split_and!; [done| |done]. rewrite Hz. f_equal. lia.
  - cbn [done_times]. rewrite done_step, Hz. cbn [add_one].
    destruct (IH (mkObject (Some (<["_DONE_" +:+ caller := PyInt (z + 1)]> (store self))))
                (z + 1)) as (self' & -> & Hcnt & Hother).
    { rewrite store_mk. unfold value_in. by rewrite lookup_insert_eq. }
    exists self'. split_and!.
    + f_equal. f_equal. cbn [seq fmap list_fmap]. f_equal.
      * f_equal. lia.
      * rewrite <- fmap_S_seq, <- list_fmap_compose. apply list_fmap_ext.
        intros i x _. simpl. f_equal. lia.
    + rewrite Hcnt. f_equal. lia.
    + intros key Hne. rewrite Hother by done. rewrite store_mk.
      unfold value_in. by rewrite lookup_insert_ne.
Qed.

(** X6.  As long as the key of a caller reads [False], the first [done]
    returns [False] and the [k]-th one returns [k - 1]; the key then holds
    the number of calls, and no other key has changed.  When the key holds
    [None] or a string, [done] raises [TypeError]. *)
Theorem done_counts_calls self caller :
  ((get self ("_DONE_" +:+ caller)).2 = PyBool false ->
   forall n : nat, exists self',
     done_times (S n) self caller
     = Some (self', PyBool false :: ((fun i => PyInt (Z.of_nat i)) <$> seq 1 n))
     /\ (get self' ("_DONE_" +:+ caller)).2 = PyInt (Z.of_nat (S n))
     /\ forall key, key <> "_DONE_" +:+ caller ->
          (get self' key).2 = (get self key).2)
  /\ ((get self ("_DONE_" +:+ caller)).2 = PyNone
      \/ (exists s, (get self ("_DONE_" +:+ caller)).2 = PyStr s) ->
      done self caller = DoneTypeError).
Proof.
  rewrite !get_snd. split.
  - intros Hfresh n.
    cbn [done_times]. rewrite done_step, Hfresh. cbn [add_one Z.b2z].
    destruct (done_times_from n
                (mkObject (Some (<["_DONE_" +:+ caller := PyInt (0 + 1)]> (store self))))
                caller 1) as (self' & -> & Hcnt & Hother).
    { rewrite store_mk. unfold value_in. by rewrite lookup_insert_eq. }
    exists self'. split_and!.
    + f_equal. f_equal. f_equal.
      rewrite <- fmap_S_seq, <- list_fmap_compose. apply list_fmap_ext.
      intros i x _. simpl. f_equal. lia.
    + rewrite get_snd, Hcnt. f_equal. lia.
    + intros key Hne. rewrite !get_snd, Hother by done. rewrite store_mk.
      unfold value_in. by rewrite lookup_insert_ne.
  - rewrite done_step. by intros [->|[s ->]].
Qed.

End ObjectStore.

(** ** [Dataset.get_class_counts] *)

Section ClassCounts.
Import Dataset.

Lemma occurrences_cons c y Y :
  occurrences c (y :: Y) = (if decide (y = c) then 1 else 0) + occurrences c Y.
Proof.
  unfold occurrences. rewrite filter_cons. destruct (decide (y = c)); simpl; lia.
Qed.

Lemma occurrences_nonneg c Y : 0 <= occurrences c Y.
Proof. unfold occurrences. lia. Qed.

Lemma total_insert_fresh (m : gmap Z Z) k v :
  m !! k = None -> total (<[k := v]> m) = v + total m.
Proof.
  intros Hk. unfold total.
  rewrite (map_fold_insert_L (fun _ c acc => c + acc) 0 k v m); [done| |done].
  intros. lia.
Qed.

Lemma total_insert_present (m : gmap Z Z) k c v :
  m !! k = Some c -> total (<[k := v]> m) = v - c + total m.
Proof.
  intros Hk. rewrite <- (insert_delete_id m k c Hk) at 2.
  rewrite <- insert_delete_eq.
  rewrite !total_insert_fresh by apply lookup_delete_eq. lia.
Qed.

Lemma get_class_counts_loop_spec Y counts :
  (forall c, get_class_counts_loop Y counts !! c
             = match counts !! c with
               | Some n => Some (n + occurrences c Y)
               | None => if decide (occurrences c Y = 0) then None
                         else Some (occurrences c Y)
               end)
  /\ total (get_class_counts_loop Y counts) = total counts + Z.of_nat (List.length Y).
Proof.
  revert counts. induction Y as [|y Y IH]; intros counts.
  - split.
    + intros c. simpl. destruct (counts !! c); [f_equal; unfold occurrences; simpl; lia|done].
    + simpl. lia.
  - cbn [get_class_counts_loop]. destruct (counts !! y) as [n|] eqn:Hy.
    + destruct (IH (<[y := n + 1]> counts)) as [Hl Ht]. split.
      * intros c. rewrite Hl, occurrences_cons.
        destruct (decide (y = c)) as [<-|Hne].
        -- rewrite lookup_insert_eq, Hy. f_equal. lia.
        -- rewrite lookup_insert_ne by done. destruct (counts !! c); [done|].
           by rewrite Z.add_0_l.
      * rewrite Ht, (total_insert_present _ _ n) by done.
        rewrite length_cons. lia.
    + destruct (IH (<[y := 1]> counts)) as [Hl Ht]. split.
      * intros c. rewrite Hl, occurrences_cons.
        pose proof (occurrences_nonneg c Y).
        destruct (decide (y = c)) as [<-|Hne].
        -- rewrite lookup_insert_eq, Hy. rewrite decide_False by lia. done.
        -- rewrite lookup_insert_ne by done. destruct (counts !! c); [done|].
           by rewrite Z.add_0_l.
      * rewrite Ht, total_insert_fresh by done. rewrite length_cons. lia.
Qed.

(** X7.  [get_class_counts] has an entry exactly for the labels that occur,
    the entry of a label is the number of its occurrences, and the entries
    add up to the number of samples. *)
Theorem get_class_counts_counts Y :
  (forall c, get_class_counts Y !! c
             = if decide (occurrences c Y = 0) then None
               else Some (occurrences c Y))
  /\ total (get_class_counts Y) = Z.of_nat (List.length Y).
Proof.
  unfold get_class_counts.
  destruct (get_class_counts_loop_spec Y ∅) as [Hl Ht]. split.
  - intros c. by rewrite Hl, lookup_empty.
  - rewrite Ht. unfold total. by rewrite map_fold_empty.
Qed.

End ClassCounts.

(** ** [generate_onehot_vocab] *)

Section OneHot.
Import Nlp.

Lemma indicator_length n P : List.length (indicator n P) = n.
Proof. unfold indicator. by rewrite length_fmap, length_seq. Qed.

Lemma indicator_lookup n P k :
  (k < n)%nat -> indicator n P !! k = Some (if P k then 1 else 0).
Proof.
  intros Hk. unfold indicator. rewrite list_lookup_fmap, lookup_seq_lt by done.
  done.
Qed.

Lemma indicator_ext n P Q :
  (forall k, (k < n)%nat -> P k = Q k) -> indicator n P = indicator n Q.
Proof.
  intros H. unfold indicator. apply list_fmap_ext. intros i k Hk.
  apply lookup_seq in Hk as [-> Hlt]. by rewrite H.
Qed.

Lemma indicator_false n : indicator n (fun _ => false) = replicate n 0.
Proof.
  apply list_eq. intros k. destruct (decide (k < n)%nat).
  - rewrite indicator_lookup by done. by rewrite lookup_replicate_2.
  - rewrite !lookup_ge_None_2; [done | rewrite length_replicate; lia
                               | rewrite indicator_length; lia].
Qed.

Lemma indicator_insert n P i :
  (i < n)%nat ->
  <[i := 1]> (indicator n P) = indicator n (fun k => (k =? i)%nat || P k).
Proof.
  intros Hi. apply list_eq. intros k. destruct (decide (k < n)%nat) as [Hk|Hk].
  - rewrite (indicator_lookup n _ k) by done.
    destruct (decide (k = i)) as [->|Hne].
    + rewrite list_lookup_insert_eq by (rewrite indicator_length; lia).
      by rewrite Nat.eqb_refl.
    + rewrite list_lookup_insert_ne by done. rewrite indicator_lookup by done.
      by destruct (Nat.eqb_spec k i).
  - rewrite !lookup_ge_None_2; [done | rewrite indicator_length; lia
                               | rewrite length_insert, indicator_length; lia].
Qed.

Lemma onehot_loop_spec words rest i vocab :
  words = take i words ++ rest -> (i <= List.length words)%nat ->
  vocab !! "_empty_" = Some (empty_vector words i) ->
  (forall w v, w <> "_empty_" ->
     (vocab !! w = Some v <->
      exists j, (j < i)%nat /\ words !! j = Some w
        /\ (forall j', (j < j' < i)%nat -> words !! j' <> Some w)
        /\ v = word_vector words j)) ->
  exists vocab',
    onehot_loop rest i vocab = Some vocab'
    /\ vocab' !! "_empty_" = Some (empty_vector words (List.length words))
    /\ (forall w v, w <> "_empty_" ->
          (vocab' !! w = Some v <->
           exists j, words !! j = Some w
             /\ (forall j', (j < j')%nat -> words !! j' <> Some w)
             /\ v = word_vector words j)).
Proof.
  revert i vocab. induction rest as [|word rest IH]; intros i vocab Hsplit Hi Hemp Hinv.
  - rewrite app_nil_r in Hsplit.
    assert (i = List.length words) as ->.
    { apply (f_equal List.length) in Hsplit. rewrite length_take in Hsplit. lia. }
    exists vocab. split_and!; [done..|]. intros w v Hw. rewrite (Hinv w v Hw).
    split.
    + intros (j & Hj & Hwj & Hlast & ->). exists j. split_and!; [done| |done].
      intros j' Hj' Hw'. apply (Hlast j'); [|done].
      apply lookup_lt_Some in Hw'. lia.
    + intros (j & Hwj & Hlast & ->). exists j. split_and!; [|done| |done].
      * by apply lookup_lt_Some in Hwj.
      * intros j' [Hj' _]. by apply Hlast.
  - assert (words !! i = Some word /\ (i < List.length words)%nat) as [Hwi Hlt].
    { assert (words !! i = Some word) as H.
      { rewrite Hsplit at 1. rewrite lookup_app_r by (rewrite length_take; lia).
        rewrite length_take. by replace (i - i `min` List.length words)%nat with 0%nat by lia. }
      split; [done|]. by apply lookup_lt_Some in H. }
    cbn [onehot_loop]. rewrite Hemp.
    rewrite decide_True by (by rewrite indicator_length).
    rewrite indicator_insert by done.
    assert (indicator (List.length words)
              (fun k => (k =? i)%nat || (k <? i)%nat && empty_at words k)
            = word_vector words i) as Hvec by done.
    apply IH.
    + rewrite (take_S_r _ _ _ Hwi), <- app_assoc. exact Hsplit.
    + lia.
    + destruct (decide (word = "_empty_")) as [->|Hne].
      * rewrite lookup_insert_eq. f_equal. apply indicator_ext. intros k Hk.
        destruct (Nat.eqb_spec k i) as [->|Hki].
        -- unfold empty_at. rewrite bool_decide_eq_true_2 by done.
           destruct (Nat.ltb_spec i (S i)); [done | lia].
        -- destruct (Nat.ltb_spec k i), (Nat.ltb_spec k (S i)); try done; lia.
      * rewrite lookup_insert_ne by done. rewrite Hemp. f_equal.
        apply indicator_ext. intros k Hk.
        destruct (Nat.ltb_spec k i), (Nat.ltb_spec k (S i)); try done; try lia.
        assert (k = i) as -> by lia. unfold empty_at.
        rewrite bool_decide_eq_false_2; [done|]. rewrite Hwi. congruence.
    + intros w v Hw. destruct (decide (word = w)) as [<-|Hne].
      * rewrite lookup_insert_eq. split.
        -- intros [= <-]. exists i. split_and!; [lia | done | lia | done].
        -- intros (j & Hj & Hwj & Hlast & ->).
           destruct (decide (j = i)) as [->|Hji]; [done|].
           exfalso. apply (Hlast i); [lia | done].
      * rewrite lookup_insert_ne by done. rewrite (Hinv w v Hw). split.
        -- intros (j & Hj & Hwj & Hlast & ->). exists j.
           split_and!; [lia | done | | done].
           intros j' Hj'. destruct (decide (j' = i)) as [->|Hne'].
           ++ rewrite Hwi. congruence.
           ++ apply Hlast. lia.
        -- intros (j & Hj & Hwj & Hlast & ->). exists j.
           assert (j <> i) by (intros ->; congruence).
           split_and!; [lia | done | | done].
           intros j' Hj'. apply Hlast. lia.
Qed.

(** X8.  [generate_onehot_vocab] never raises, and every vector has the
    length of the word list.  The vector of a word other than '_empty_' has
    a 1 at the last index of the word, a 1 at every earlier index that holds
    the word '_empty_', and 0 elsewhere; the vector of '_empty_' has a 1 at
    every index that holds '_empty_'.  So when '_empty_' is not among the
    words, each word gets the one-hot vector of its last index and '_empty_'
    the zero vector. *)
Theorem generate_onehot_vocab_vectors words :
  exists vocab,
    generate_onehot_vocab words = Some vocab
    /\ vocab !! "_empty_"
       = Some (indicator (List.length words) (empty_at words))
    /\ (forall w v, w <> "_empty_" ->
          (vocab !! w = Some v <->
           exists j, words !! j = Some w
             /\ (forall j', (j < j')%nat -> words !! j' <> Some w)
             /\ v = word_vector words j))
    /\ (forall w v, vocab !! w = Some v -> List.length v = List.length words)
    /\ ("_empty_" ∉ words ->
        vocab !! "_empty_" = Some (replicate (List.length words) 0)
        /\ forall j w, words !! j = Some w ->
             (forall j', (j < j')%nat -> words !! j' <> Some w) ->
             vocab !! w
             = Some (indicator (List.length words) (fun k => (k =? j)%nat))).
Proof.
  unfold generate_onehot_vocab.
  destruct (onehot_loop_spec words words 0
              {["_empty_" := replicate (List.length words) 0]})
    as (vocab & Hrun & Hemp & Hvec).
  - done.
  - lia.
  - rewrite lookup_singleton_eq. f_equal. rewrite <- indicator_false.
    by apply indicator_ext.
  - intros w v Hw. rewrite lookup_singleton_ne by done. split; [done|].
    intros (j & Hj & _). lia.
  - assert (vocab !! "_empty_"
            = Some (indicator (List.length words) (empty_at words))) as Hemp'.
    { rewrite Hemp. f_equal. apply indicator_ext. intros k Hk.
      by destruct (Nat.ltb_spec k (List.length words)); [|lia]. }
    exists vocab. split_and!; [done..| |].
    + intros w v Hwv. destruct (decide (w = "_empty_")) as [->|Hne].
      * rewrite Hemp' in Hwv. injection Hwv as <-. apply indicator_length.
      * apply Hvec in Hwv as (j & _ & _ & ->); [|done]. apply indicator_length.
    + intros Hnot.
      assert (forall k, empty_at words k = false) as Hno.
      { intros k. unfold empty_at. apply bool_decide_eq_false_2.
        intros Hk. apply Hnot. by eapply list_elem_of_lookup_2. }
      split.
      * rewrite Hemp'. f_equal. rewrite <- indicator_false.
        apply indicator_ext. intros k _. apply Hno.
      * intros j w Hwj Hlast.
        assert (w <> "_empty_") as Hw.
        { intros ->. apply Hnot. by eapply list_elem_of_lookup_2. }
        apply (Hvec w _ Hw). exists j. split_and!; [done..|].
        apply indicator_ext. intros k _. by rewrite Hno, andb_false_r, orb_false_r.
Qed.

End OneHot.

(** ** More on the classifier of nlp.py and on the accumulator of document.py *)

Section MoreSegmentation.
Import Nlp.
Context {ucd : Unicode}.

Lemma chain_app_inv strict a b l1 l2 :
  chain strict a b (l1 ++ l2) ->
  exists c, chain strict a c l1 /\ chain strict c b l2.
Proof.
  revert a. induction l1 as [|[s e] r IH]; simpl; intros a.
  - intros H. by exists a.
  - intros (-> & Hse & Hr). destruct (IH _ Hr) as (c & H1 & H2).
    exists c. by split_and!.
Qed.

Lemma candidates_loop_chain d cands prev m a :
  chain true a (doc_len d) cands ->
  chain true 0 a (Document.sen_offsets m) ->
  (prev = None -> Document.sen_offsets m = []) ->
  (prev <> None -> Document.sen_offsets m <> []) ->
  Document.sen_spans m = to_span d <$> Document.sen_offsets m ->
  exists m',
    Document.candidates_loop d cands prev m = Ok m'
    /\ chain true 0 (doc_len d) (Document.sen_offsets m')
    /\ Document.sen_spans m' = to_span d <$> Document.sen_offsets m'
    /\ (List.length (Document.sen_offsets m')
        <= List.length (Document.sen_offsets m) + List.length cands)%nat.
Proof.
  revert prev m a.
  induction cands as [|[s e] r IH]; intros prev m a Hc Hacc Hnone Hsome Hsp.
  - simpl in Hc. subst a. exists m. split_and!; [done..|lia].
  - destruct Hc as (-> & Hse & Hr). cbn [Document.candidates_loop].
    set (fold := match prev with
                 | Some (p_start, p_end) =>
                     Document.combine_with_previous (mkSpan d p_start p_end)
                       (mkSpan d a e)
                 | None => false
                 end).
    destruct fold eqn:Hfold.
    + assert (Document.sen_offsets m <> []) as Hoff.
      { apply Hsome. subst fold. destruct prev; [done | discriminate]. }
      destruct (exists_last Hoff) as (offs & [s0 e0] & Heq).
      destruct m as [flag offsets spans]. simpl in *. subst offsets spans.
      rewrite last_snoc, fmap_snoc, !set_last_snoc. simpl.
      apply chain_app_inv in Hacc as (c & Hc1 & Hc2).
      simpl in Hc2. destruct Hc2 as (-> & Hs0 & ->).
      destruct (IH (Some (a, e))
                  (Document.mkMerged true (offs ++ [(c, e)])
                     ((to_span d <$> offs) ++ [mkSpan d c e])) e)
        as (m' & Hrun & Hch & Hspans & Hlen); simpl.
      * done.
      * eapply chain_app; [exact Hc1|]. simpl. split_and!; [done | lia | done].
      * done.
      * intros _. by destruct offs.
      * by rewrite fmap_snoc.
      * exists m'. rewrite <- Hrun. split_and!; [|done..|].
        -- unfold fold. by destruct prev as [[]|].
        -- simpl in Hlen. rewrite length_app in Hlen. rewrite length_app. simpl in *. lia.
    + destruct (IH (Some (a, e))
                  (Document.mkMerged (Document.need_to_reparse m)
                     (Document.sen_offsets m ++ [(a, e)])
                     (Document.sen_spans m ++ [mkSpan d a e])) e)
        as (m' & Hrun & Hch & Hspans & Hlen); simpl.
      * done.
      * eapply chain_app; [exact Hacc|]. simpl. by split_and!.
      * done.
      * intros _. by destruct (Document.sen_offsets m).
      * by rewrite fmap_snoc, Hsp.
      * exists m'. split_and!; [done..|].
        simpl in Hlen. rewrite length_app in Hlen. simpl in *. lia.
Qed.

(** X9.  The loop of [generate_sentences] over the candidates of a document
    never raises, and the offsets it accumulates are non-empty spans that
    partition the tokens of the document, at most as many as there are
    candidates; the accumulated spans are the spans of these offsets, and
    their tokens, in order, are the tokens of the document. *)
Theorem generate_sentences_partition d :
  exists m,
    Document.candidates_loop d (sents d) None (Document.mkMerged false [] [])
    = Ok m
    /\ partition_of (doc_len d) (Document.sen_offsets m)
    /\ (forall s e, (s, e) ∈ Document.sen_offsets m -> s < e)
    /\ (List.length (Document.sen_offsets m) <= List.length (sents d))%nat
    /\ Document.sen_spans m = to_span d <$> Document.sen_offsets m
    /\ List.concat (span_tokens <$> Document.sen_spans m) = d.
Proof.
  destruct (candidates_loop_chain d (sents d) None (Document.mkMerged false [] []) 0)
    as (m & Hrun & Hch & Hsp & Hlen); [apply sents_chain | done..|].
  exists m. split_and!; [done| | |done|done|].
  - by apply chain_partition, chain_weaken.
  - intros s e Hin. by destruct (chain_elem _ _ _ _ _ _ Hch Hin) as (_ & ? & _).
  - rewrite Hsp, <- list_fmap_compose.
    rewrite (chain_tokens d 0 (doc_len d)); [|lia|by apply chain_weaken].
    unfold doc_len. rewrite Z.sub_0_r, Nat2Z.id. simpl. by rewrite firstn_all.
Qed.

(** X10.  In [nlp.combine_with_previous], a current span of fewer than 7
    tokens whose text contains a closing parenthesis is merged, and so is
    any span with a non-empty text that follows a span of fewer than 3
    tokens starting with an uppercase letter.  The function returns [False]
    exactly when no rule applies: a current span of fewer than 3 tokens
    starts with a character that is not lowercase and the previous text has
    no closing parenthesis, a current span of fewer than 7 tokens has no
    closing parenthesis, a previous span of fewer than 3 tokens starts with
    a character that is not uppercase, and the previous text ends in
    terminal punctuation. *)
Theorem combine_with_previous_rules previous current :
  (end_ current - start current < 7 ->
   ord ")" ∈ span_text current ->
   combine_with_previous previous current = Ok true)
  /\ (forall c, end_ previous - start previous < 3 ->
        str_first (span_text previous) = Ok c -> isupper c = true ->
        span_text current <> [] ->
        combine_with_previous previous current = Ok true)
  /\ (combine_with_previous previous current = Ok false <->
      (end_ current - start current < 3 ->
       exists c, str_first (span_text current) = Ok c /\ islower c = false
                 /\ ord ")" ∉ span_text previous)
      /\ ~ (end_ current - start current < 7
            /\ ord ")" ∈ span_text current)
      /\ (end_ previous - start previous < 3 ->
          exists c, str_first (span_text previous) = Ok c /\ isupper c = false)
      /\ ends_terminal (span_text previous)).
Proof.
  unfold not. setoid_rewrite <- has_close_paren_spec.
  rewrite <- ending_punctuation_spec.
  split_and!.
  - intros Hlen Hparen.
    assert (span_text current <> []) as Hne.
    { intros Hemp. rewrite Hemp in Hparen. done. }
    destruct (str_first_ok _ Hne) as [cc Hcc].
    unfold combine_with_previous, combine_rule, bind. rewrite Hcc, Hparen.
    destruct (Z.ltb_spec (end_ current - start current) 7); [|lia].
    repeat (case_match; simpl; simplify_eq; eauto).
  - intros c Hlen Hc Hup Hne.
    destruct (str_first_ok _ Hne) as [cc Hcc].
    unfold combine_with_previous, combine_rule, bind. rewrite Hcc, Hc, Hup.
    destruct (Z.ltb_spec (end_ previous - start previous) 3); [|lia].
    repeat (case_match; simpl; simplify_eq; eauto).
  - unfold combine_with_previous, combine_rule, bind.
    destruct (Z.ltb_spec (end_ current - start current) 3) as [H3|H3];
      destruct (Z.ltb_spec (end_ current - start current) 7) as [H7|H7];
      try lia;
      destruct (Z.ltb_spec (end_ previous - start previous) 3) as [P3|P3];
      destruct (str_first (span_text current)) as [cc|] eqn:Hcc;
      destruct (str_first (span_text previous)) as [cp|] eqn:Hcp;
      simpl;
      try destruct (islower cc) eqn:Hlow;
      try destruct (isupper cp) eqn:Hup;
      destruct (has_close_paren (span_text previous)) eqn:Hpp;
      destruct (has_close_paren (span_text current)) eqn:Hpc;
      destruct (ending_punctuation (span_text previous)) eqn:Hend;
      simpl; (split; [ try done; intros _; split_and!;
                       first [ done | lia | intros []; done | intros; lia
                             | intros _; eexists; split_and!; done ]
                     | try done; intros (H1 & H2 & H4 & H5);
                       try (destruct (H1 ltac:(lia)) as (? & ? & ? & ?));
                       try (destruct (H4 ltac:(lia)) as (? & ? & ?));
                       simplify_eq; try done; try congruence;
                       try (exfalso; eauto; fail);
                       try (exfalso; apply H2; split; [lia | done]) ]).
Qed.

End MoreSegmentation.

(** ** What [doc.sents] gives after [set_sentence_starts] *)

Section RecordedStarts.
Import Nlp.
Context {ucd : Unicode}.

Lemma sents_loop_starts ts s i out s' :
  sents_loop ts s i = (out, s') ->
  forall k, (k ∈ out.*1 \/ k = s') <->
            (k = s \/ exists j t, ts !! j = Some t
                        /\ is_sent_start t = Some true /\ k = i + Z.of_nat j).
Proof.
  revert s i out s'. induction ts as [|t ts IH]; intros s i out s' Hrun k.
  - simpl in Hrun. injection Hrun as <- <-. split.
    + intros [H|H]; [by apply elem_of_nil in H | by left].
    + intros [->|(j & t & H & _)]; [by right | done].
  - cbn [sents_loop] in Hrun.
    assert (forall out1 s1, sents_loop ts s (i + 1) = (out1, s1) ->
              is_sent_start t <> Some true ->
              (k ∈ out1.*1 \/ k = s1) <->
              (k = s \/ exists j t0, (t :: ts) !! j = Some t0
                          /\ is_sent_start t0 = Some true /\ k = i + Z.of_nat j))
      as Hskip.
    { intros out1 s1 H1 Hflag. rewrite (IH _ _ _ _ H1 k). split.
      - intros [->|(j & t0 & Hj & Ht0 & ->)]; [by left|].
        right. exists (S j), t0. split_and!; [done..|lia].
      - intros [->|(j & t0 & Hj & Ht0 & ->)]; [by left|].
        destruct j as [|j]; [simpl in Hj; congruence|].
        right. exists j, t0. split_and!; [done..|lia]. }
    destruct (is_sent_start t) as [[]|] eqn:Hflag;
      [|by apply Hskip|by apply Hskip].
    destruct (sents_loop ts i (i + 1)) as [out1 s1] eqn:H1.
    injection Hrun as <- <-. rewrite fmap_cons, elem_of_cons. simpl.
    pose proof (IH _ _ _ _ H1 k) as Hk. split.
    + intros [[->|Hin]| ->]; [by left| |].
      * destruct (proj1 Hk (or_introl Hin)) as [->|(j & t0 & Hj & Ht0 & ->)].
        -- right. exists 0%nat, t. split_and!; [done..|lia].
        -- right. exists (S j), t0. split_and!; [done..|lia].
      * destruct (proj1 Hk (or_intror eq_refl)) as [->|(j & t0 & Hj & Ht0 & ->)].
        -- right. exists 0%nat, t. split_and!; [done..|lia].
        -- right. exists (S j), t0. split_and!; [done..|lia].
    + intros [->|(j & t0 & Hj & Ht0 & Hkj)]; [by left; left|].
      destruct j as [|j].
      * assert (k = i) as -> by lia.
        destruct (proj2 Hk (or_introl eq_refl)) as [Hin|Heq].
        -- left. by right.
        -- by right.
      * simpl in Hj.
        destruct (proj2 Hk) as [Hin|Heq].
        { right. exists j, t0. split_and!; [done..|lia]. }
        -- left. by right.
        -- by right.
Qed.

Lemma sents_starts d k :
  k ∈ (sents d).*1 <->
  (k = 0 /\ d <> [])
  \/ exists j t, (0 < j)%nat /\ d !! j = Some t
       /\ is_sent_start t = Some true /\ k = Z.of_nat j.
Proof.
  unfold sents. destruct (sents_loop (drop 1 d) 0 1) as [out s'] eqn:Hrun.
  pose proof (sents_loop_starts _ _ _ _ _ Hrun k) as Hk.
  destruct (sents_loop_chain (drop 1 d) 0 1 out s' ltac:(lia) Hrun) as [Hch Hlt].
  rewrite length_drop in Hlt. unfold doc_len.
  destruct d as [|t0 d].
  - simpl in *. injection Hrun as <- <-. simpl. split.
    + intros H. by apply elem_of_nil in H.
    + intros [[_ ?]|(j & t & _ & H & _)]; done.
  - simpl List.length in *. simpl drop in *. rewrite drop_0 in Hk.
    destruct (Z.eqb_spec s' (Z.of_nat (S (List.length d)))); [lia|].
    rewrite fmap_app, elem_of_app. simpl. rewrite list_elem_of_singleton, Hk.
    split.
    + intros [->|(j & t & Hj & Ht & ->)]; [by left|].
      right. exists (S j), t. split_and!; [lia | done | done | lia].
    + intros [[-> _]|(j & t & Hj0 & Hj & Ht & ->)]; [by left|].
      destruct j as [|j]; [lia|]. right. exists j, t. split_and!; [done..|lia].
Qed.

Lemma strict_chain_unique a b l1 l2 :
  chain true a b l1 -> chain true a b l2 ->
  (forall k, k ∈ l1.*1 <-> k ∈ l2.*1) -> l1 = l2.
Proof.
  revert a l2. induction l1 as [|[s1 e1] r1 IH]; intros a l2 H1 H2 Hst.
  - destruct l2 as [|[s2 e2] r2]; [done|]. exfalso.
    destruct (Hst s2) as [_ H]. rewrite fmap_cons in H.
    eapply elem_of_nil, H. by left.
  - destruct l2 as [|[s2 e2] r2].
    { exfalso. destruct (Hst s1) as [H _]. rewrite fmap_cons in H.
      eapply elem_of_nil, H. by left. }
    destruct H1 as (-> & Hse1 & Hr1), H2 as (-> & Hse2 & Hr2).
    pose proof (chain_le _ _ _ _ Hr1) as Hle1.
    pose proof (chain_le _ _ _ _ Hr2) as Hle2.
    assert (forall (ra rb : list (Z * Z)) ea eb,
              chain true ea b ra -> chain true eb b rb -> a < ea -> a < eb ->
              (forall k, k ∈ ((a, ea) :: ra).*1 -> k ∈ ((a, eb) :: rb).*1) ->
              eb <= ea) as Hcmp.
    { intros ra rb ea eb Ha Hb Hae Hbe Hsub.
      destruct (Z.le_gt_cases eb ea) as [|Hlt]; [done|]. exfalso.
      destruct ra as [|[sa ea'] ra'].
      - simpl in Ha. pose proof (chain_le _ _ _ _ Hb). lia.
      - destruct Ha as (-> & _ & _).
        assert (ea ∈ ((a, eb) :: rb).*1) as Hin.
        { apply Hsub. rewrite !fmap_cons. right. by left. }
        rewrite fmap_cons in Hin. apply elem_of_cons in Hin as [Heq|Hin].
        + simpl in Heq. lia.
        + apply list_elem_of_fmap in Hin as ([k e] & -> & Hin).
          destruct (chain_elem _ _ _ _ _ _ Hb Hin) as (? & _). simpl in *. lia. }
    assert (e1 = e2) as ->.
    { apply Z.le_antisymm.
      - apply (Hcmp r2 r1 e2 e1); [done..|]. intros k. apply Hst.
      - apply (Hcmp r1 r2 e1 e2); [done..|]. intros k. apply Hst. }
    f_equal. apply (IH e2); [done..|].
    intros k. specialize (Hst k). rewrite !fmap_cons, !elem_of_cons in Hst.
    simpl in Hst. split; intros Hin.
    + assert (e2 <= k) as Hk.
      { apply list_elem_of_fmap in Hin as ([k' e] & -> & Hin).
        by destruct (chain_elem _ _ _ _ _ _ Hr1 Hin). }
      destruct (proj1 Hst (or_intror Hin)) as [?|?]; [lia | done].
    + assert (e2 <= k) as Hk.
      { apply list_elem_of_fmap in Hin as ([k' e] & -> & Hin).
        by destruct (chain_elem _ _ _ _ _ _ Hr2 Hin). }
      destruct (proj2 Hst (or_intror Hin)) as [?|?]; [lia | done].
Qed.

Lemma nonempty_spans_chain a b l :
  chain false a b l -> chain true a b (nonempty_spans l).
Proof.
  unfold nonempty_spans.
  revert a. induction l as [|[s e] r IH]; intros a; [done|].
  intros (-> & Hse & Hr). rewrite filter_cons. simpl.
  destruct (decide (a < e)).
  - simpl. split_and!; [done..|]. by apply IH.
  - assert (e = a) as -> by lia. by apply IH.
Qed.

Lemma elem_of_nonempty_spans l s e :
  (s, e) ∈ nonempty_spans l <-> s < e /\ (s, e) ∈ l.
Proof. unfold nonempty_spans. by rewrite list_elem_of_filter. Qed.

Lemma chain_start_nonempty a b l k e :
  chain false a b l -> (k, e) ∈ l -> k < b ->
  exists e', (k, e') ∈ l /\ k < e'.
Proof.
  revert a e. induction l as [|[s0 e0] r IH]; intros a e Hc Hin Hk.
  - by apply elem_of_nil in Hin.
  - destruct Hc as (-> & Hse & Hr).
    assert (forall e1, (k, e1) ∈ r -> exists e', (k, e') ∈ (a, e0) :: r /\ k < e')
      as Htail.
    { intros e1 Hin1. destruct (IH _ _ Hr Hin1 Hk) as (e' & Hin' & Hlt).
      exists e'. split; [by right | done]. }
    apply elem_of_cons in Hin as [Heq|Hin]; [|by eapply Htail].
    injection Heq as -> ->.
    destruct (decide (a < e0)) as [Hlt|Hge].
    + exists e0. split; [by left | done].
    + assert (e0 = a) as -> by lia.
      destruct r as [|[s1 e1] r']; [simpl in Hr; lia|].
      destruct Hr as (-> & Hr). apply (Htail e1). by left.
Qed.

Lemma set_sentence_starts_flags d segments d' :
  sentence_segmenter d = Ok segments -> set_sentence_starts d = Ok d' ->
  List.length d' = List.length d
  /\ (forall j t', d' !! j = Some t' -> (S j < List.length d)%nat ->
        (is_sent_start t' = Some true <-> exists e, (Z.of_nat j, e) ∈ segments)
        /\ (is_sent_start t' = Some true \/ is_sent_start t' = None))
  /\ (forall j, S j = List.length d -> d' !! j = d !! j).
Proof.
  intros Hseg. unfold set_sentence_starts, bind. rewrite Hseg. intros [= <-].
  destruct (decide (d = [])) as [->|Hne]; [by split_and!|].
  destruct (exists_last Hne) as (d0 & tl & ->).
  rewrite removelast_last, drop_app_length. split_and!.
  - by rewrite !length_app, length_imap.
  - intros j t' Hj Hlt. rewrite length_app in Hlt. simpl in Hlt.
    rewrite lookup_app_l in Hj by (rewrite length_imap; lia).
    rewrite list_lookup_imap in Hj.
    destruct (d0 !! j) as [t|]; [|done]. simpl in Hj. injection Hj as <-.
    simpl. rewrite <- elem_of_starts. destruct (decide _); split; auto; by split.
  - intros j Hj. rewrite length_app in Hj. simpl in Hj.
    rewrite !lookup_app_r by (rewrite ?length_imap; lia).
    by rewrite length_imap.
Qed.

(** The marks that [set_sentence_starts] leaves delimit the non-empty
    segments exactly when the mark of the last token, which is never
    rewritten, already agrees with them. *)
Lemma recorded_sents d segments d' :
  sentence_segmenter d = Ok segments ->
  set_sentence_starts d = Ok d' ->
  (sents d' = nonempty_spans segments <->
   forall t, last d = Some t ->
     (is_sent_start t = Some true /\ (2 <= List.length d)%nat
      <-> (doc_len d - 1, doc_len d) ∈ segments /\ (2 <= List.length d)%nat)).
Proof.
  intros Hseg Hset.
  destruct (set_sentence_starts_flags d segments d' Hseg Hset) as (Hlen & Hflag & Hsame).
  pose proof (sentence_segmenter_result d segments Hseg) as ->.
  pose proof (chain_shift d _ _ _ (sents_chain d)) as Hch.
  rewrite bump_0, bump_len, !Z.add_0_r in Hch.
  assert (doc_len d' = doc_len d) as Hn by (unfold doc_len; by rewrite Hlen).
  split.
  { intros Heq t Hl.
    destruct (decide (2 <= List.length d)%nat) as [H2|H2]; [|split; intros [_ ?]; lia].
    assert (d' !! pred (List.length d) = Some t) as Hlast'.
    { rewrite (Hsame (pred (List.length d))) by lia. by rewrite <- last_lookup. }
    assert (is_sent_start t = Some true <-> doc_len d - 1 ∈ (sents d').*1) as ->.
    { rewrite sents_starts. split.
      - intros Ht. right. exists (pred (List.length d)), t.
        split_and!; [lia | done | done | unfold doc_len; lia].
      - intros [[H0 _]|(j & t' & Hj0 & Hj & Ht' & Hk)]; [unfold doc_len in H0; lia|].
        assert (j = pred (List.length d)) as -> by (unfold doc_len in Hk; lia).
        rewrite Hlast' in Hj. by injection Hj as ->. }
    rewrite Heq. split.
    - intros [([s e] & Hs & [Hlt Hin]%elem_of_nonempty_spans)%list_elem_of_fmap _].
      simpl in *. subst s.
      destruct (chain_elem _ _ _ _ _ _ Hch Hin) as (_ & _ & Hen).
      assert (e = doc_len d) as -> by lia. done.
    - intros [Hin _]. split; [|done].
      apply list_elem_of_fmap. exists (doc_len d - 1, doc_len d). split; [done|].
      apply elem_of_nonempty_spans. split; [simpl; lia | done]. }
  intros Hlast.
  apply (strict_chain_unique 0 (doc_len d)).
  - rewrite <- Hn. apply sents_chain.
  - by apply nonempty_spans_chain.
  - intros k. rewrite sents_starts. split.
    + intros [[-> Hne]|(j & t' & Hj0 & Hj & Ht' & ->)].
      * assert (0 < doc_len d) as Hpos.
        { rewrite <- Hn. unfold doc_len. destruct d'; [done | simpl; lia]. }
        destruct (shift_pair d <$> sents d) as [|[s e] r] eqn:E;
          [simpl in Hch; lia|].
        destruct Hch as (-> & Hse & Hr).
        destruct (chain_start_nonempty 0 (doc_len d) ((0, e) :: r) 0 e)
          as (e' & Hin & Hlt); [by split_and! | by left | done |].
        apply list_elem_of_fmap. exists (0, e'). split; [done|].
        by apply elem_of_nonempty_spans.
      * pose proof (lookup_lt_Some _ _ _ Hj) as Hjn. rewrite Hlen in Hjn.
        destruct (decide (S j < List.length d)%nat) as [Hin|Hend].
        -- apply (proj1 (Hflag j t' Hj Hin)) in Ht' as [e He].
           destruct (chain_start_nonempty _ _ _ _ _ Hch He)
             as (e' & Hin' & Hlt); [unfold doc_len; lia|].
           apply list_elem_of_fmap. exists (Z.of_nat j, e'). split; [done|].
           by apply elem_of_nonempty_spans.
        -- assert (S j = List.length d) as Hj' by lia.
           rewrite (Hsame j Hj') in Hj.
           assert (last d = Some t') as Hl.
           { rewrite last_lookup. by replace (pred (List.length d)) with j by lia. }
           destruct (proj1 (Hlast t' Hl)) as [Hin _]; [split; [done | lia]|].
           apply list_elem_of_fmap. exists (doc_len d - 1, doc_len d).
           split; [unfold doc_len; simpl; lia|].
           apply elem_of_nonempty_spans. split; [simpl; lia | done].
    + intros ([s e] & -> & [Hlt Hin]%elem_of_nonempty_spans)%list_elem_of_fmap.
      simpl in *.
      destruct (chain_elem _ _ _ _ _ _ Hch Hin) as (Hs0 & _ & Hen).
      destruct (decide (s = 0)) as [->|Hs].
      * left. split; [done|]. intros ->. unfold doc_len in *.
        destruct d; simpl in *; [lia | done].
      * right. assert (Z.to_nat s < List.length d')%nat as Hsn
          by (rewrite Hlen; unfold doc_len in *; lia).
        destruct (lookup_lt_is_Some_2 _ _ Hsn) as [t' Ht'].
        exists (Z.to_nat s), t'. split_and!; [lia | done | | lia].
        destruct (decide (S (Z.to_nat s) < List.length d)%nat) as [Hmid|Hend].
        -- apply (proj1 (Hflag _ t' Ht' Hmid)). exists e. by rewrite Z2Nat.id by lia.
        -- assert (S (Z.to_nat s) = List.length d) as Hj'
             by (unfold doc_len in *; lia).
           rewrite (Hsame _ Hj') in Ht'.
           assert (last d = Some t') as Hl.
           { rewrite last_lookup.
             by replace (pred (List.length d)) with (Z.to_nat s) by lia. }
           assert (s = doc_len d - 1) as -> by (unfold doc_len; lia).
           assert (e = doc_len d) as -> by lia.
           destruct (proj2 (Hlast t' Hl)) as [Hflag' _]; [|done].
           split; [done | unfold doc_len in *; lia].
Qed.

Lemma is_sentenced_spec (d : Doc) :
  is_sentenced d = true <->
  (List.length d < 2)%nat
  \/ exists j t, (0 < j)%nat /\ d !! j = Some t /\ is_sent_start t <> None.
Proof.
  unfold is_sentenced. rewrite orb_true_iff, Nat.ltb_lt, existsb_exists.
  split; (intros [Hlen|Hex]; [by left | right]).
  - destruct Hex as (t & Hin & Ht). apply list_elem_of_In in Hin.
    apply list_elem_of_lookup in Hin as [j Hj]. rewrite lookup_drop in Hj.
    exists (1 + j)%nat, t. split_and!; [lia | done |]. by destruct (is_sent_start t).
  - destruct Hex as (j & t & Hj0 & Hj & Ht). exists t. split.
    + apply list_elem_of_In, list_elem_of_lookup. exists (pred j).
      rewrite lookup_drop. by replace (1 + pred j)%nat with j by lia.
    + by destruct (is_sent_start t).
Qed.

(** X11.  After [set_sentence_starts], [doc.sents] raises [ValueError]
    exactly when the document has two tokens or more, no segment of
    [sentence_segmenter] starts after the first token and before the last
    one, and the last token, whose mark is never rewritten, has the mark
    [None].  It gives the non-empty segments exactly when it does not raise
    and the mark of the last token agrees with the segments: in a document of
    two tokens or more that mark is [True] if and only if one segment is the
    last token alone.  When the last token has a mark, as after the
    sentencizer, [doc.sents] does not raise. *)
Theorem sents_after_set_sentence_starts d segments d' :
  sentence_segmenter d = Ok segments ->
  set_sentence_starts d = Ok d' ->
  (doc_sents d' = Raise ValueError <->
   (2 <= List.length d)%nat
   /\ (forall s e, (s, e) ∈ segments -> 0 < s -> doc_len d - 1 <= s)
   /\ (forall t, last d = Some t -> is_sent_start t = None))
  /\ (doc_sents d' = Ok (nonempty_spans segments) <->
      ~ ((2 <= List.length d)%nat
         /\ (forall s e, (s, e) ∈ segments -> 0 < s -> doc_len d - 1 <= s)
         /\ (forall t, last d = Some t -> is_sent_start t = None))
      /\ forall t, last d = Some t ->
           (is_sent_start t = Some true /\ (2 <= List.length d)%nat
            <-> (doc_len d - 1, doc_len d) ∈ segments /\ (2 <= List.length d)%nat))
  /\ ((forall t, last d = Some t -> is_sent_start t <> None) ->
      doc_sents d' = Ok (sents d')).
Proof.
  intros Hseg Hset.
  destruct (set_sentence_starts_flags d segments d' Hseg Hset) as (Hlen & Hflag & Hsame).
  assert (is_sentenced d' = false <->
          (2 <= List.length d)%nat
          /\ (forall s e, (s, e) ∈ segments -> 0 < s -> doc_len d - 1 <= s)
          /\ (forall t, last d = Some t -> is_sent_start t = None)) as Hraise.
  { rewrite <- not_true_iff_false, is_sentenced_spec, Hlen. split.
    - intros Hno.
      assert (2 <= List.length d)%nat as H2.
      { destruct (decide (2 <= List.length d)%nat); [done|]. exfalso. apply Hno. left. lia. }
      split_and!; [done| |].
      + intros s e Hin Hs. destruct (Z.le_gt_cases (doc_len d - 1) s); [done|].
        exfalso. apply Hno. right.
        assert (Z.to_nat s < List.length d')%nat as Hsn
          by (rewrite Hlen; unfold doc_len in *; lia).
        destruct (lookup_lt_is_Some_2 _ _ Hsn) as [t' Ht'].
        exists (Z.to_nat s), t'. split_and!; [lia | done |].
        destruct (Hflag _ t' Ht') as [Hiff _]; [unfold doc_len in *; lia|].
        rewrite (proj2 Hiff); [done|]. exists e. by rewrite Z2Nat.id by lia.
      + intros t Hl. destruct (is_sent_start t) eqn:E; [|done].
        exfalso. apply Hno. right. exists (pred (List.length d)), t.
        split_and!; [lia | | congruence].
        rewrite (Hsame (pred (List.length d))) by lia. by rewrite <- last_lookup.
    - intros (H2 & Hmid & Hlast) [Hlt|(j & t' & Hj0 & Hj & Ht')]; [lia|].
      pose proof (lookup_lt_Some _ _ _ Hj) as Hjn. rewrite Hlen in Hjn.
      destruct (decide (S j < List.length d)%nat) as [Hin|Hend].
      + destruct (Hflag j t' Hj Hin) as [Hiff [Htrue|Hnone]]; [|done].
        apply Hiff in Htrue as [e He].
        specialize (Hmid _ _ He). unfold doc_len in Hmid. lia.
      + assert (S j = List.length d) as Hj' by lia.
        rewrite (Hsame j Hj') in Hj. apply Ht', (Hlast t').
        rewrite last_lookup. by replace (pred (List.length d)) with j by lia. }
  unfold doc_sents. split_and!.
  - rewrite <- Hraise. by destruct (is_sentenced d').
  - rewrite <- Hraise, <- (recorded_sents d segments d' Hseg Hset).
    destruct (is_sentenced d'); split.
    + intros [= ->]. by split.
    + intros [_ ->]. done.
    + done.
    + intros [Hn _]. done.
  - intros Hmark.
    assert (is_sentenced d' = true) as ->; [|done].
    apply not_false_iff_true. intros (H2 & _ & Hlast)%Hraise.
    destruct (last d) as [t|] eqn:Hl.
    + by apply (Hmark t), Hlast.
    + apply last_None in Hl. subst d. simpl in H2. lia.
Qed.

End RecordedStarts.

(** ** Patterns with a repeated class *)

Section ReMany.

Lemma many_sound k cont l r :
  many k cont l = Some r ->
  exists g gs l', r = g :: gs /\ Forall (fun c => k c = true) g
                  /\ l = g ++ l' /\ cont l' = Some gs.
Proof.
  revert r. induction l as [|c l IH]; intros r; cbn [many].
  - destruct (cont []) as [gs|] eqn:E; [|done]. intros [= <-].
    exists [], gs, []. by split_and!.
  - assert (cons [] <$> cont (c :: l) = Some r ->
            exists g gs l', r = g :: gs /\ Forall (fun c => k c = true) g
                            /\ c :: l = g ++ l' /\ cont l' = Some gs) as Hzero.
    { destruct (cont (c :: l)) as [gs|] eqn:E; [|done]. intros [= <-].
      exists [], gs, (c :: l). by split_and!. }
    destruct (k c) eqn:Hk; [|done].
    destruct (many k cont l) as [[|g gs]|] eqn:Hm; [done| |done].
    intros [= <-]. destruct (IH _ eq_refl) as (g' & gs' & l' & [= -> ->] & Hg & -> & Hc).
    exists (c :: g'), gs', l'. split_and!; [done | by constructor | done | done].
Qed.

Lemma many_zero k cont l : is_Some (cont l) -> is_Some (many k cont l).
Proof.
  intros [gs Hgs]. destruct l as [|c l]; cbn [many]; [by rewrite Hgs|].
  destruct (k c); [|by rewrite Hgs].
  destruct (many k cont l) as [[|g gs']|]; rewrite ?Hgs; done.
Qed.

Lemma many_complete k cont g l' :
  Forall (fun c => k c = true) g -> is_Some (cont l') ->
  is_Some (many k cont (g ++ l')).
Proof.
  intros Hg Hc. induction Hg as [|c g Hk Hg IH]; [by apply many_zero|].
  simpl. rewrite Hk. destruct IH as [r Hr]. rewrite Hr.
  destruct (many_sound _ _ _ _ Hr) as (g' & gs & ? & -> & _). done.
Qed.

Lemma run_sound p dollar l gs :
  run p dollar l = Some gs ->
  Forall2 item_fits p gs
  /\ exists rest, l = List.concat gs ++ rest /\ stops dollar rest.
Proof.
  revert l gs. induction p as [|[k|k] p IH]; intros l gs; cbn [run].
  - intros H. assert (gs = [] /\ stops dollar l) as [-> Hst].
    { unfold stops. destruct dollar.
      - destruct (at_dollar l) eqn:E; [|done]. injection H as <-.
        split; [done|]. intros _. by apply at_dollar_spec.
      - injection H as <-. by split. }
    split; [constructor|]. by exists l.
  - destruct l as [|c l]; [done|]. destruct (k c) eqn:Hk; [|done].
    destruct (run p dollar l) as [gs'|] eqn:E; [|done]. intros [= <-].
    destruct (IH _ _ E) as (Hf & rest & -> & Hst). split.
    + constructor; [|done]. by exists c.
    + by exists rest.
  - intros (g & gs' & l' & -> & Hg & -> & Hc)%many_sound.
    destruct (IH _ _ Hc) as (Hf & rest & -> & Hst). split.
    + by constructor.
    + exists rest. split; [|done]. simpl. by rewrite <- app_assoc.
Qed.

Lemma run_complete p dollar gs rest :
  Forall2 item_fits p gs -> stops dollar rest ->
  is_Some (run p dollar (List.concat gs ++ rest)).
Proof.
  intros Hf Hst. induction Hf as [|it g p gs Hit Hf IH]; cbn [run].
  - simpl. destruct dollar; [|done].
    assert (at_dollar rest = true) as -> by (by apply at_dollar_spec, Hst). done.
  - destruct it as [k|k]; simpl in Hit.
    + destruct Hit as (c & -> & Hk). simpl. rewrite Hk.
      destruct IH as [r ->]. done.
    + simpl. rewrite <- app_assoc. by apply many_complete.
Qed.

Lemma search_sound p dollar l before gs :
  search p dollar l = Some (before, gs) ->
  Forall2 item_fits p gs
  /\ exists rest, l = before ++ List.concat gs ++ rest /\ stops dollar rest.
Proof.
  revert before. induction l as [|c l IH]; intros before; cbn [search].
  - destruct (run p dollar []) as [gs'|] eqn:E; [|done]. intros [= <- <-].
    by apply run_sound.
  - destruct (run p dollar (c :: l)) as [gs'|] eqn:E.
    + intros [= <- <-]. by apply run_sound.
    + destruct (search p dollar l) as [[b gs']|] eqn:Es; [|done].
      intros [= <- <-]. destruct (IH _ eq_refl) as (Hf & rest & -> & Hst).
      split; [done|]. by exists rest.
Qed.

Lemma search_complete p dollar before gs rest :
  Forall2 item_fits p gs -> stops dollar rest ->
  is_Some (search p dollar (before ++ List.concat gs ++ rest)).
Proof.
  intros Hf Hst. induction before as [|c before IH].
  - simpl. destruct (run_complete p dollar gs rest Hf Hst) as [r Hr].
    destruct (List.concat gs ++ rest); cbn [search]; by rewrite Hr.
  - simpl. cbn [search]. destruct (run p dollar _); [done|].
    destruct IH as [[b r] ->]. done.
Qed.

End ReMany.

(** ** [split_words] *)

Section SplitWords.
Import Nlp.
Context {ucd : Unicode}.

Local Abbreviation W := word_char.
Local Abbreviation Q := (is_char "'").
Local Abbreviation tail_pattern := [One Q; One W; Many W].
Local Abbreviation no_ws l := (Forall (fun c => non_ws c = true) l).
Local Abbreviation all_W l := (Forall (fun c => W c = true) l).

Lemma word_char_not_apostrophe c : W c = true -> c <> ord "'".
Proof.
  intros H ->. unfold word_char in H.
  rewrite isalnum_ascii in H by (by vm_compute). by vm_compute in H.
Qed.

Lemma non_ws_not_newline c : non_ws c = true -> c <> 10.
Proof. intros H ->. by vm_compute in H. Qed.

Lemma non_ws_any_char c : non_ws c = true -> any_char c = true.
Proof.
  intros H. unfold any_char, is_char. apply negb_true_iff.
  apply Z.eqb_neq. by apply non_ws_not_newline.
Qed.

Lemma letter_word_char c : letter c = true -> W c = true.
Proof.
  unfold letter, word_char. intros H.
  rewrite isalnum_ascii by lia. lia.
Qed.

Lemma letter_non_ws c : letter c = true -> non_ws c = true.
Proof. unfold letter, non_ws, isspace. lia. Qed.

Lemma letter_not_hyphen c : letter c = true -> c <> ord "-".
Proof. intros H ->. by vm_compute in H. Qed.

Lemma stops_no_newline rest :
  stops true rest -> 10 ∉ rest -> rest = [].
Proof.
  intros Hst Hn. destruct (Hst eq_refl) as [->| ->]; [done|].
  exfalso. apply Hn. by left.
Qed.

Lemma tail_fits gs :
  Forall2 item_fits tail_pattern gs ->
  exists b B, gs = [[ord "'"]; [b]; B] /\ all_W (b :: B).
Proof.
  intros H. inversion H as [|? g1 ? gs1 Hg1 H1]; subst.
  inversion H1 as [|? g2 ? gs2 Hg2 H2]; subst.
  inversion H2 as [|? g3 ? gs3 Hg3 H3]; subst. inversion H3; subst.
  simpl in Hg1, Hg2, Hg3.
  destruct Hg1 as (c1 & -> & Hc1), Hg2 as (c2 & -> & Hc2).
  unfold is_char in Hc1. apply Z.eqb_eq in Hc1 as ->.
  exists c2, g3. split; [done|]. by constructor.
Qed.

Lemma run_tail_sound l gs :
  10 ∉ l -> run tail_pattern true l = Some gs ->
  exists b B, gs = [[ord "'"]; [b]; B] /\ l = ord "'" :: b :: B /\ all_W (b :: B).
Proof.
  intros Hnl (Hf & rest & -> & Hst)%run_sound.
  destruct (tail_fits gs Hf) as (b & B & -> & HW).
  assert (rest = []) as ->.
  { apply stops_no_newline; [done|]. intros Hin. apply Hnl. set_solver. }
  exists b, B. split_and!; [done| |done]. simpl. by rewrite !app_nil_r.
Qed.

Lemma run_tail_complete b B :
  all_W (b :: B) -> is_Some (run tail_pattern true (ord "'" :: b :: B)).
Proof.
  intros HW. apply Forall_cons in HW as [Hb HB].
  pose proof (run_complete tail_pattern true [[ord "'"]; [b]; B] []) as H.
  cbn [List.concat app] in H. rewrite !app_nil_r in H. apply H.
  - repeat apply List.Forall2_cons; [by exists (ord "'") | by exists b | done |].
    apply List.Forall2_nil.
  - intros _. by left.
Qed.

Lemma sub_scan_skip (repl : list (str) -> str) l :
  sub_scan tail_pattern true repl (List.length l) l = [].
Proof. induction l as [|c l IH]; [done|]. simpl. exact IH. Qed.

Lemma sub_scan_last_apostrophe pre b B :
  10 ∉ pre ++ ord "'" :: b :: B -> all_W (b :: B) ->
  sub_scan tail_pattern true (fun _ => []) 0 (pre ++ ord "'" :: b :: B) = pre.
Proof.
  intros Hnl HW. induction pre as [|c pre IH].
  - destruct (run_tail_complete b B HW) as [gs Hgs].
    destruct (run_tail_sound _ _ Hnl Hgs) as (b' & B' & -> & [= <- <-] & _).
    cbn [app sub_scan]. rewrite Hgs. simpl List.length.
    rewrite app_nil_r. cbn [app].
    change (sub_scan tail_pattern true (fun _ => []) (List.length (b :: B)) (b :: B) = []).
    apply sub_scan_skip.
  - cbn [app sub_scan].
    destruct (run tail_pattern true (c :: pre ++ ord "'" :: b :: B)) as [gs|] eqn:E.
    + exfalso. destruct (run_tail_sound _ _ Hnl E) as (b' & B' & _ & Heq & HW').
      injection Heq as -> Heq.
      assert (ord "'" ∈ b' :: B') as Hin by (rewrite <- Heq; set_solver).
      rewrite Forall_forall in HW'. by apply (word_char_not_apostrophe _ (HW' _ Hin)).
    + f_equal. apply IH. intros Hin. apply Hnl. by right.
Qed.

Lemma last_apostrophe_unique (A A' B B' : str) :
  A ++ ord "'" :: B = A' ++ ord "'" :: B' ->
  ord "'" ∉ B -> ord "'" ∉ B' -> A = A' /\ B = B'.
Proof.
  revert A'. induction A as [|a A IH]; intros A' Heq HB HB'.
  - destruct A' as [|a' A']; simpl in *.
    + by injection Heq as ->.
    + injection Heq as <- ->. exfalso. apply HB, elem_of_app. right. by left.
  - destruct A' as [|a' A']; simpl in *.
    + injection Heq as -> <-. exfalso. apply HB', elem_of_app. right. by left.
    + injection Heq as -> Heq. destruct (IH _ Heq HB HB') as [-> ->]. done.
Qed.

Lemma all_W_no_apostrophe B : all_W B -> ord "'" ∉ B.
Proof.
  intros HW Hin. rewrite Forall_forall in HW.
  by apply (word_char_not_apostrophe _ (HW _ Hin)).
Qed.

Lemma sub_anchored_ending A b B :
  no_ws (A ++ ord "'" :: b :: B) -> all_W (b :: B) ->
  sub_anchored (Many any_char :: tail_pattern) true
    (fun gs => List.concat (drop 2 gs)) (A ++ ord "'" :: b :: B)
  = b :: B.
Proof.
  intros Hws HW. unfold sub_anchored.
  assert (10 ∉ A ++ ord "'" :: b :: B) as Hnl.
  { intros Hin. rewrite Forall_forall in Hws.
    by apply (non_ws_not_newline _ (Hws _ Hin)). }
  assert (is_Some (run (Many any_char :: tail_pattern) true
                     (A ++ ord "'" :: b :: B))) as [gs Hgs].
  { pose proof (run_complete (Many any_char :: tail_pattern) true
                  [A; [ord "'"]; [b]; B] []) as H.
    cbn [List.concat app] in H. rewrite !app_nil_r in H. apply H.
    - apply Forall_cons in HW as [Hb HB].
      apply List.Forall2_cons.
      + simpl. apply Forall_app in Hws as [HA _].
        eapply Forall_impl; [exact HA|]. apply non_ws_any_char.
      + repeat apply List.Forall2_cons; [by exists (ord "'") | by exists b | done |].
        apply List.Forall2_nil.
    - intros _. by left. }
  rewrite Hgs. cbn [run] in Hgs.
  apply many_sound in Hgs as (g & gs' & l' & -> & _ & Heq & Hrun).
  assert (10 ∉ l') as Hnl'.
  { intros Hin. apply Hnl. rewrite Heq. set_solver. }
  destruct (run_tail_sound _ _ Hnl' Hrun) as (b' & B' & -> & -> & HW').
  destruct (last_apostrophe_unique _ _ _ _ Heq) as [-> [= -> ->]];
    [by apply all_W_no_apostrophe..|].
  simpl. rewrite !app_nil_r.
  by rewrite drop_all, app_nil_r.
Qed.

(** What the second loop does with a word. *)
Lemma apostrophes_split A a b B :
  no_ws (A ++ a :: ord "'" :: b :: B) -> W a = true -> all_W (b :: B) ->
  apostrophes (A ++ a :: ord "'" :: b :: B) = [A ++ [a]; ord "'" :: b :: B].
Proof.
  intros Hws Ha HW. unfold apostrophes.
  assert (is_Some (search [One W; One Q; One W; Many W] true
                     (A ++ a :: ord "'" :: b :: B))) as [[before gs] Hs].
  { pose proof (search_complete [One W; One Q; One W; Many W] true A
                  [[a]; [ord "'"]; [b]; B] []) as H.
    cbn [List.concat app] in H. rewrite !app_nil_r in H. apply H.
    - apply Forall_cons in HW as [Hb HB].
      repeat apply List.Forall2_cons;
        [by exists a | by exists (ord "'") | by exists b | done |].
      apply List.Forall2_nil.
    - intros _. by left. }
  rewrite Hs.
  replace (A ++ a :: ord "'" :: b :: B)
    with ((A ++ [a]) ++ ord "'" :: b :: B) in * by (by rewrite <- app_assoc).
  rewrite sub_anchored_ending by done.
  rewrite sub_scan_last_apostrophe; [done| |done].
  intros Hin. rewrite Forall_forall in Hws.
  by apply (non_ws_not_newline _ (Hws _ Hin)).
Qed.

Lemma apostrophes_search w before gs :
  no_ws w ->
  search [One W; One Q; One W; Many W] true w = Some (before, gs) ->
  exists a b B, w = before ++ a :: ord "'" :: b :: B
                /\ W a = true /\ all_W (b :: B).
Proof.
  intros Hws (Hf & rest & -> & Hst)%search_sound.
  inversion Hf as [|? g0 ? gs0 Hg0 Hf']; subst.
  simpl in Hg0. destruct Hg0 as (a & -> & Ha).
  destruct (tail_fits _ Hf') as (b & B & -> & HW).
  assert (rest = []) as ->.
  { apply stops_no_newline; [done|]. intros Hin. rewrite Forall_forall in Hws.
    apply (non_ws_not_newline 10); [|done]. apply Hws. set_solver. }
  exists a, b, B. split_and!; [|done..]. simpl. by rewrite !app_nil_r.
Qed.

Lemma apostrophes_concat w : no_ws w -> List.concat (apostrophes w) = w.
Proof.
  intros Hws.
  destruct (search [One W; One Q; One W; Many W] true w) as [[before gs]|] eqn:Hs.
  - destruct (apostrophes_search w before gs Hws Hs) as (a & b & B & -> & Ha & HW).
    rewrite apostrophes_split by done. simpl.
    by rewrite app_nil_r, <- app_assoc.
  - unfold apostrophes. rewrite Hs. simpl. by rewrite app_nil_r.
Qed.

Lemma apostrophes_none w :
  no_ws w ->
  (forall A a b B, w = A ++ a :: ord "'" :: b :: B -> W a = true ->
                   all_W (b :: B) -> False) ->
  apostrophes w = [w].
Proof.
  intros Hws Hno. unfold apostrophes.
  destruct (search _ true w) as [[before gs]|] eqn:Hs; [|done].
  exfalso. destruct (apostrophes_search w before gs Hws Hs) as (a & b & B & -> & Ha & HW).
  by eapply Hno.
Qed.

Lemma concat_apostrophes items :
  Forall (fun w => no_ws w) items ->
  List.concat (List.concat (apostrophes <$> items)) = List.concat items.
Proof.
  induction 1 as [|w items Hw _ IH]; [done|].
  rewrite fmap_cons. simpl. rewrite concat_app, IH. by rewrite apostrophes_concat.
Qed.

Lemma split_on_spec sep cur l (P : Z -> Prop) :
  Forall P (cur ++ l) ->
  Forall P (split_on sep cur l).1
  /\ Forall (Forall P) (split_on sep cur l).2
  /\ (split_on sep cur l).1
       ++ List.concat ((fun part => sep :: part) <$> (split_on sep cur l).2)
     = cur ++ l.
Proof.
  revert cur. induction l as [|c l IH]; intros cur HP; cbn [split_on].
  - simpl. rewrite app_nil_r in *. by split_and!.
  - destruct (Z.eqb_spec c sep) as [->|Hne].
    + apply Forall_app in HP as [Hcur HP]. apply Forall_cons in HP as [_ HP].
      destruct (IH [] HP) as (H1 & H2 & H3).
      destruct (split_on sep [] l) as [first others]. simpl in *.
      split_and!; [done | by constructor | do 2 f_equal; exact H3].
    + replace (cur ++ c :: l) with ((cur ++ [c]) ++ l) in * by (by rewrite <- app_assoc).
      by apply IH.
Qed.

Lemma hyphens_spec w :
  no_ws w ->
  Forall (fun item => no_ws item) (hyphens w)
  /\ List.concat (hyphens w) = hyphen_prefix w ++ w.
Proof.
  intros Hws. unfold hyphens, hyphen_prefix, re_search.
  destruct (search_from _ false w); [|by split; [repeat constructor | simpl; rewrite app_nil_r]].
  destruct (split_on_spec (ord "-") [] w (fun c => non_ws c = true) Hws) as (H1 & H2 & H3).
  destruct (split_on (ord "-") [] w) as [first others]. simpl in *. split.
  - constructor; [done|]. constructor; [by repeat constructor|].
    constructor; [done|]. clear H3. induction H2 as [|p others Hp _ IH]; [done|].
    rewrite fmap_cons. simpl. constructor; [by repeat constructor|]. by constructor.
  - rewrite <- H3, <- app_assoc. simpl. do 3 f_equal.
    clear. induction others as [|p others IH]; [done|].
    rewrite fmap_cons. simpl. do 2 f_equal. exact IH.
Qed.

Lemma split_ws_spec cur l :
  no_ws cur ->
  Forall (fun w => no_ws w /\ w <> []) (split_ws cur l)
  /\ List.concat (split_ws cur l) = cur ++ filter (fun c => non_ws c = true) l
  /\ forall w, w ∈ split_ws cur l -> exists pre post, cur ++ l = pre ++ w ++ post.
Proof.
  revert cur. induction l as [|c l IH]; intros cur Hcur; cbn [split_ws].
  - destruct cur as [|c0 cur].
    + split_and!; [constructor | done |]. intros w Hw. by apply elem_of_nil in Hw.
    + split_and!.
      * apply Forall_singleton. by split.
      * simpl. by rewrite !app_nil_r.
      * intros w ->%list_elem_of_singleton. exists [], []. by rewrite !app_nil_r.
  - rewrite filter_cons. destruct (isspace c) eqn:Hc.
    + assert (non_ws c <> true) as Hn by (unfold non_ws; by rewrite Hc).
      rewrite decide_False by done.
      destruct (IH [] ltac:(constructor)) as (H1 & H2 & H3).
      assert (forall w, w ∈ split_ws [] l ->
                exists pre post, cur ++ c :: l = pre ++ w ++ post) as Hin.
      { intros w (pre & post & Heq)%H3. simpl in Heq. rewrite Heq.
        exists (cur ++ c :: pre), post. by rewrite <- !app_assoc. }
      destruct cur as [|c0 cur]; [by split_and!|].
      split_and!; [by constructor | by simpl; rewrite H2 |].
      intros w [->|Hw]%elem_of_cons; [|by apply Hin].
      exists [], (c :: l). done.
    + assert (non_ws c = true) as Hn by (unfold non_ws; by rewrite Hc).
      rewrite decide_True by done.
      destruct (IH (cur ++ [c])) as (H1 & H2 & H3).
      { apply Forall_app. split; [done|]. by repeat constructor. }
      split_and!; [done | by rewrite H2, <- app_assoc |].
      intros w (pre & post & Heq)%H3. exists pre, post.
      by rewrite <- Heq, <- app_assoc.
Qed.

Lemma search_from_infix p pre w post :
  search_from p false w = true -> search_from p false (pre ++ w ++ post) = true.
Proof.
  rewrite !search_from_spec. intros (b & m & a & -> & Hm & _).
  exists (pre ++ b), m, (a ++ post). split_and!; [|done..].
  by rewrite <- !app_assoc.
Qed.

Lemma split_words_concat text :
  List.concat (split_words text)
  = List.concat ((fun w => hyphen_prefix w ++ w) <$> split_ws [] text).
Proof.
  unfold split_words.
  destruct (split_ws_spec [] text ltac:(constructor)) as (Hws & _ & _).
  rewrite concat_apostrophes.
  - induction Hws as [|w ws [Hw _] _ IH]; [done|].
    rewrite !fmap_cons. simpl. rewrite concat_app, IH.
    by rewrite (proj2 (hyphens_spec w Hw)).
  - induction Hws as [|w ws [Hw _] _ IH]; [done|].
    rewrite fmap_cons. simpl. apply Forall_app. split; [|done].
    apply (hyphens_spec w Hw).
Qed.

(** X12.  Joined together, the strings that [split_words] returns are the
    words of the text (its maximal runs of characters that are not white
    space), each word with a hyphen between two letters preceded by a second
    copy of its part before the first hyphen and by a hyphen.  So for a text
    without a hyphen between two letters the joined result is the text
    without its white space, and a text of white space only gives the empty
    list. *)
Theorem split_words_joined (text : str) :
  List.concat (split_words text)
  = List.concat ((fun w => hyphen_prefix w ++ w) <$> split_ws [] text)
  /\ List.concat (split_ws [] text)
     = filter (fun c => non_ws c = true) text
  /\ (re_search [letter; is_char "-"; letter] false text = false ->
      List.concat (split_words text)
      = filter (fun c => non_ws c = true) text)
  /\ (Forall (fun c => isspace c = true) text -> split_words text = []).
Proof.
  rewrite split_words_concat.
  destruct (split_ws_spec [] text ltac:(constructor)) as (Hws & Hcat & Hinf).
  simpl in Hcat. split_and!; [done..| |].
  - intros Hno. rewrite <- Hcat. f_equal.
    rewrite <- (list_fmap_id (split_ws [] text)) at 2.
    apply list_fmap_ext.
    intros i w Hw. unfold hyphen_prefix, re_search.
    destruct (search_from _ false w) eqn:E; [|done]. exfalso.
    apply list_elem_of_lookup_2, Hinf in Hw as (pre & post & Heq).
    simpl in Heq. unfold re_search in Hno. rewrite Heq in Hno.
    by rewrite (search_from_infix _ pre w post E) in Hno.
  - intros Hall. unfold split_words.
    assert (split_ws [] text = []) as ->; [|done].
    revert Hall. generalize text. intros l Hall.
    induction Hall as [|c l Hc _ IH]; [done|]. cbn [split_ws]. rewrite Hc. exact IH.
Qed.

Lemma split_ws_no_ws cur w :
  no_ws w -> split_ws cur w = match cur ++ w with [] => [] | _ => [cur ++ w] end.
Proof.
  intros Hws. revert cur. induction Hws as [|c w Hc _ IH]; intros cur.
  - simpl. rewrite app_nil_r. by destruct cur.
  - cbn [split_ws]. unfold non_ws in Hc. apply negb_true_iff in Hc. rewrite Hc.
    rewrite IH, <- app_assoc. simpl. by destruct cur.
Qed.

Lemma split_ws_word w : w <> [] -> no_ws w -> split_ws [] w = [w].
Proof. intros Hne Hws. rewrite split_ws_no_ws by done. simpl. by destruct w. Qed.

Lemma apostrophes_no_apostrophe w :
  no_ws w -> ord "'" ∉ w -> apostrophes w = [w].
Proof.
  intros Hws Hno. apply apostrophes_none; [done|].
  intros A a b B -> _ _. apply Hno, elem_of_app. right. right. by left.
Qed.

(** X13.  A word without white space and without a hyphen between two
    letters that ends in a word character, an apostrophe and one or more
    word characters is cut before that apostrophe; a word that does not end
    so is returned as it is. *)
Theorem split_words_apostrophe (text : str) :
  text <> [] ->
  Forall (fun c => non_ws c = true) text ->
  re_search [letter; is_char "-"; letter] false text = false ->
  (forall A a b B,
     text = A ++ a :: ord "'" :: b :: B ->
     word_char a = true -> Forall (fun c => word_char c = true) (b :: B) ->
     split_words text = [A ++ [a]; ord "'" :: b :: B])
  /\ ((forall A a b B,
         text = A ++ a :: ord "'" :: b :: B ->
         word_char a = true -> Forall (fun c => word_char c = true) (b :: B) ->
         False) ->
      split_words text = [text]).
Proof.
  intros Hne Hws Hno. unfold split_words.
  rewrite split_ws_word by done. unfold re_search in Hno.
  assert (hyphens text = [text]) as Hh
    by (unfold hyphens, re_search; by rewrite Hno).
  simpl. rewrite Hh. simpl. rewrite app_nil_r. split.
  - intros A a b B Heq Ha HW. rewrite Heq in *. by apply apostrophes_split.
  - intros Hnone. by apply apostrophes_none.
Qed.

Lemma split_on_no_sep sep cur v :
  sep ∉ v -> split_on sep cur v = (cur ++ v, []).
Proof.
  revert cur. induction v as [|c v IH]; intros cur Hn; cbn [split_on].
  - by rewrite app_nil_r.
  - destruct (Z.eqb_spec c sep) as [->|Hne]; [exfalso; apply Hn; by left|].
    rewrite IH, <- app_assoc; [done|]. intros Hin. apply Hn. by right.
Qed.

Lemma split_on_first sep cur u v :
  sep ∉ u -> sep ∉ v -> split_on sep cur (u ++ sep :: v) = (cur ++ u, [v]).
Proof.
  revert cur. induction u as [|c u IH]; intros cur Hu Hv.
  - simpl. rewrite Z.eqb_refl, split_on_no_sep by done. by rewrite app_nil_r.
  - cbn [app split_on].
    destruct (Z.eqb_spec c sep) as [->|Hne]; [exfalso; apply Hu; by left|].
    rewrite IH, <- app_assoc; [done| |done]. intros Hin. apply Hu. by right.
Qed.

Lemma letters_no_char (x : Z) u :
  letter x = false -> Forall (fun c => letter c = true) u -> x ∉ u.
Proof.
  intros Hx Hu Hin. rewrite Forall_forall in Hu. specialize (Hu _ Hin). congruence.
Qed.

(** X14.  Two runs of letters joined by a hyphen give five strings, the first
    run twice: the run, a hyphen, the run again, a hyphen, the second run. *)
Theorem split_words_hyphenated (u v : str) :
  u <> [] -> v <> [] ->
  Forall (fun c => letter c = true) u -> Forall (fun c => letter c = true) v ->
  split_words (u ++ ord "-" :: v)
  = [u; [ord "-"]; u; [ord "-"]; v].
Proof.
  intros Hu Hv Lu Lv. unfold split_words.
  assert (no_ws u) as Wu by (eapply Forall_impl; [exact Lu | apply letter_non_ws]).
  assert (no_ws v) as Wv by (eapply Forall_impl; [exact Lv | apply letter_non_ws]).
  assert (no_ws (u ++ ord "-" :: v)) as Hws.
  { apply Forall_app. split; [done|]. by constructor. }
  rewrite split_ws_word; [|by destruct u|done].
  assert (search_from [letter; is_char "-"; letter] false (u ++ ord "-" :: v) = true)
    as Hs.
  { apply search_from_spec.
    destruct (exists_last Hu) as (u' & x & ->). destruct v as [|y v']; [done|].
    apply Forall_app in Lu as [_ Lx]. apply Forall_cons in Lx as [Lx _].
    apply Forall_cons in Lv as [Ly _].
    exists u', [x; ord "-"; y], v'. split_and!; [by rewrite <- app_assoc| |done].
    apply List.Forall2_cons; [exact Lx|]. apply List.Forall2_cons; [reflexivity|].
    apply List.Forall2_cons; [exact Ly|]. apply List.Forall2_nil. }
  assert (hyphens (u ++ ord "-" :: v) = [u; [ord "-"]; u; [ord "-"]; v]) as Hh.
  { unfold hyphens, re_search. rewrite Hs.
    rewrite split_on_first by (by apply letters_no_char). done. }
  simpl. rewrite Hh. simpl. rewrite app_nil_r.
  assert (forall w, Forall (fun c => letter c = true) w -> apostrophes w = [w]) as Hl.
  { intros w Lw. apply apostrophes_no_apostrophe.
    - eapply Forall_impl; [exact Lw | apply letter_non_ws].
    - by apply letters_no_char. }
  assert (apostrophes [ord "-"] = [[ord "-"]]) as Hhy.
  { apply apostrophes_no_apostrophe; [by repeat constructor|].
    intros Hin%list_elem_of_singleton. by vm_compute in Hin. }
  rewrite !Hhy, !(Hl u Lu), (Hl v Lv). reflexivity.
Qed.

End SplitWords.

(** ** The further properties on concrete inputs *)

Section MoreWitnesses.
Import Nlp Examples Objects.
Local Existing Instance latin1.

(** [set] on a store with one key, and a second [set] on the same key. *)
Lemma set_get_other_keys_witness :
  set (mkObject (Some {["lang" := PyStr "en"]})) "verbose" (PyBool true)
  = Ok (mkObject (Some (<["verbose" := PyBool true]> {["lang" := PyStr "en"]})))
  /\ (get (mkObject (Some (<["verbose" := PyBool true]> {["lang" := PyStr "en"]})))
        "lang").2
     = (get (mkObject (Some {["lang" := PyStr "en"]})) "lang").2.
Proof.
  split; [reflexivity|].
  apply (proj1 (proj2 (set_get_other_keys
                         (mkObject (Some {["lang" := PyStr "en"]}))
                         "verbose" (PyBool true) _ eq_refl))).
  discriminate.
Defined.

Lemma NoDup_dataset_default : NoDup dataset_default.*1.
Proof. by apply (bool_decide_unpack _). Qed.

Lemma NoDup_some_options : NoDup some_options.*1.
Proof. by apply (bool_decide_unpack _). Qed.

(** The defaults of dataset.py on an object without [_value_]. *)
Lemma set_defaults_fills_falsy_witness :
  NoDup dataset_default.*1
  /\ exists self',
       set_defaults (mkObject None) (Some dataset_default) = Ok self'
       /\ forall key,
            (get self' key).2
            = defaulted (Some dataset_default) key (get (mkObject None) key).2.
Proof.
  split; [exact NoDup_dataset_default|].
  apply (set_defaults_fills_falsy (mkObject None) dataset_default).
  exact NoDup_dataset_default.
Defined.

(** The same defaults applied twice. *)
Lemma set_defaults_idempotent_witness :
  set_defaults (mkObject None) (Some dataset_default)
  = Ok (mkObject (Some {["default_file" := PyStr "dataset"]}))
  /\ set_defaults (mkObject (Some {["default_file" := PyStr "dataset"]}))
       (Some dataset_default)
     = Ok (mkObject (Some {["default_file" := PyStr "dataset"]})).
Proof.
  split; [reflexivity|].
  apply (set_defaults_idempotent (mkObject None) _ dataset_default).
  - exact NoDup_dataset_default.
  - reflexivity.
Defined.

(** A dict with the key "input" and two false values, over the defaults of
    dataset.py, with a [mkdir] that returns. *)
Lemma set_options_dict_witness :
  exists self',
    set_options (fun _ => Ok tt) (mkObject None) (OptDict some_options)
      (Some dataset_default)
    = Ok self'
    /\ forall key,
         (get self' key).2
         = defaulted (Some dataset_default) key
             (absorbed skip_dict some_options key (get (mkObject None) key).2).
Proof.
  apply (set_options_dict (fun _ => Ok tt) (mkObject None) some_options
           (Some dataset_default)).
  - exact NoDup_some_options.
  - intros d [= <-]. exact NoDup_dataset_default.
Defined.

(** An [Options] object with a key that starts with an underscore. *)
Lemma set_options_from_options_witness :
  exists self',
    set_options (fun _ => Ok tt) (mkObject None) (OptOptions some_options_object)
      None
    = Ok self'
    /\ forall key,
         (get self' key).2
         = defaulted None key
             (if skip_options key then (get (mkObject None) key).2
              else match (<["_DONE_load" := PyInt 1]> {["lang" := PyStr "en"]}
                            : gmap string pyval) !! key with
                   | Some v => v
                   | None => (get (mkObject None) key).2
                   end).
Proof.
  apply (proj2 (set_options_from_options (fun _ => Ok tt) (mkObject None)
                  some_options_object None ltac:(discriminate))).
  reflexivity.
Defined.

(** Three calls of [done] from "load" on a new object. *)
Lemma done_counts_calls_witness :
  exists self',
    done_times 3 (mkObject None) "load"
    = Some (self', [PyBool false; PyInt 1; PyInt 2])
    /\ (get self' "_DONE_load").2 = PyInt 3
    /\ forall key, key <> "_DONE_load" ->
         (get self' key).2 = (get (mkObject None) key).2.
Proof.
  apply (proj1 (done_counts_calls (mkObject None) "load") eq_refl 2%nat).
Defined.

(** The vectors of two words. *)
Lemma generate_onehot_vocab_vectors_witness :
  exists vocab,
    generate_onehot_vocab ["a"; "b"] = Some vocab
    /\ vocab !! "b" = Some [0; 1].
Proof.
  destruct (generate_onehot_vocab_vectors ["a"; "b"])
    as (vocab & Hrun & _ & _ & _ & Hone).
  exists vocab. split; [exact Hrun|].
  destruct Hone as [_ Hvec].
  - intros Hin. by apply (bool_decide_pack _) in Hin.
  - apply (Hvec 1%nat "b"); [reflexivity|].
    intros [|[|[|j']]] Hlt; simpl; try discriminate; lia.
Defined.

(** "(Yes.)" after "He left.": four tokens with a closing parenthesis. *)
Lemma combine_with_previous_rules_witness :
  end_ (mkSpan doc_paren 3 7) - start (mkSpan doc_paren 3 7) < 7
  /\ combine_with_previous (mkSpan doc_paren 0 3) (mkSpan doc_paren 3 7) = Ok true.
Proof.
  split; [reflexivity|].
  apply (proj1 (combine_with_previous_rules (mkSpan doc_paren 0 3)
                  (mkSpan doc_paren 3 7))); [reflexivity|].
  apply has_close_paren_spec. reflexivity.
Defined.

(** On "a.  b" the last token starts a segment but keeps its mark [None],
    and no other token after the first starts one: [doc.sents] raises. *)
Lemma sents_after_set_sentence_starts_witness :
  sentence_segmenter doc_blank_before_last = Ok [(0, 3); (3, 4)]
  /\ set_sentence_starts doc_blank_before_last
     = Ok [tok "a" false (Some true); tok "." false None; tok " " false None;
           tok "b" false None]
  /\ doc_sents [tok "a" false (Some true); tok "." false None; tok " " false None;
                tok "b" false None]
     = Raise ValueError.
Proof.
  split; [reflexivity|]. split; [by vm_compute|].
  refine (proj2 (proj1 (sents_after_set_sentence_starts doc_blank_before_last
                          [(0, 3); (3, 4)]
                          [tok "a" false (Some true); tok "." false None;
                           tok " " false None; tok "b" false None] _ _)) _);
    [reflexivity | by vm_compute |].
  split_and!.
  - simpl. lia.
  - intros s e Hin Hs. apply elem_of_cons in Hin as [[= -> ->]|Hin]; [lia|].
    apply list_elem_of_singleton in Hin as [= -> ->]. by vm_compute.
  - intros t [= <-]. reflexivity.
Defined.

(** After the sentencizer the last token has a mark: on three tokens in one
    sentence [doc.sents] gives the segment back. *)
Example recorded_sentences_after_sentencizer :
  sentence_segmenter doc_one_sentence = Ok [(0, 3)]
  /\ set_sentence_starts doc_one_sentence
     = Ok [tok "a" true (Some true); tok "b" true None; tok "c" false (Some false)]
  /\ doc_sents [tok "a" true (Some true); tok "b" true None; tok "c" false (Some false)]
     = Ok [(0, 3)].
Proof. split_and!; by vm_compute. Qed.

(** "don't stop": no hyphen, so nothing but the white space is lost. *)
Lemma split_words_joined_witness :
  re_search [letter; is_char "-"; letter] false (chars "don't stop") = false
  /\ List.concat (split_words (chars "don't stop"))
     = filter (fun c => non_ws c = true) (chars "don't stop").
Proof.
  split; [reflexivity|].
  apply (proj1 (proj2 (proj2 (split_words_joined (chars "don't stop"))))).
  reflexivity.
Defined.

(** "don't" is cut before its apostrophe. *)
Lemma split_words_apostrophe_witness :
  split_words (chars "don't") = [chars "don"; chars "'t"].
Proof.
  apply (proj1 (split_words_apostrophe (chars "don't") ltac:(discriminate)
                  ltac:(by repeat constructor) eq_refl)
           (chars "do") (ord "n") (ord "t") []);
    [reflexivity | reflexivity | by repeat constructor].
Defined.

(** "well-known" gives "well" twice. *)
Lemma split_words_hyphenated_witness :
  split_words (chars "well" ++ ord "-" :: chars "known")
  = [chars "well"; [ord "-"]; chars "well"; [ord "-"]; chars "known"].
Proof.
  apply (split_words_hyphenated (chars "well") (chars "known"));
    [discriminate | discriminate | by repeat constructor | by repeat constructor].
Defined.

(** A no-break space separates two words, and a letter that is not ASCII is a
    word character: "a", U+00A0, "b", and "caf", U+00E9, "'s". *)
Example split_words_not_ascii :
  split_words (chars "a" ++ [160] ++ chars "b") = [chars "a"; chars "b"]
  /\ split_words (chars "caf" ++ [233] ++ chars "'s")
     = [chars "caf" ++ [233]; chars "'s"].
Proof. split; by vm_compute. Qed.

End MoreWitnesses.
